(** * siggo: the in-memory conversation model (package [model])

    A shallow embedding of [model/model.go].  Go pointers ([*Contact],
    [*Message], [*Conversation]) are locations into three typed stores, so
    that in-place mutation and pointer identity (the conversation registry is
    keyed by [*Contact]) are visible.  Methods are computations in a small
    state-and-panic monad over the [World]: the stores, the one [Siggo]
    value, and the trace of observable calls (log lines and invocations of
    the [NewInfo] hook).

    The development has four parts: the model; the words of the
    specification that the code is compared with; concrete worlds to run the
    model on; and the proofs.  Each handler gets a closed form ([*_run]) on
    well-formed worlds, from which the numbered properties follow, and the
    invariants [wf] and [all_ordered] are shown to hold in every reachable
    world. *)

From Stdlib Require Import Ascii String.
From stdpp Require Import gmap strings list fin_maps pretty.

Open Scope string_scope.
Open Scope list_scope.

(** ** Locations *)

(** A pointer is a location.  A location outside the domain of its store
    plays the role of [nil]: dereferencing it panics. *)
Abbreviation loc := positive.

(** [&T{...}]: a location not yet in the store. *)
Definition fresh_loc {V} (σ : gmap loc V) : loc := fresh (dom σ).

(** Go's [error]: [None] is [nil]. *)
Abbreviation error := (option string).

(** ** Package [signal]: the event payloads *)

Module signal.

(** Modelled from the spec: the declarations of package [signal] are not
    part of the sources at hand.  The fields are the ones [model.go]
    reads: "an inbound payload containing sender identifier, message text,
    and sender-assigned timestamp" and "sender identifier, delivery flag,
    read flag, and a sequence of timestamps the receipt applies to".
    Timestamps are [int64] (they are stored into [Message.Timestamp]
    without conversion); no arithmetic is ever done on them. *)
Record DataMessage := {
  DataMessage_Message : string;
  DataMessage_Timestamp : Z }.

Record ReceiptMessage := {
  ReceiptMessage_IsDelivery : bool;
  ReceiptMessage_IsRead : bool;
  ReceiptMessage_Timestamps : list Z }.

Record Envelope := {
  Source : string;
  Envelope_DataMessage : DataMessage;
  Envelope_ReceiptMessage : ReceiptMessage }.

Record Message := { Message_Envelope : Envelope }.

End signal.

(** ** Data model *)

(** [var DeliveryStatus map[bool]string] *)
Definition DeliveryStatus (b : bool) : string :=
  match b with true => "<" | false => "?" end.

(** [var ReadStatus map[bool]string] *)
Definition ReadStatus (b : bool) : string :=
  match b with true => ">" | false => "?" end.

Record Config := {
  UserName : string;
  UserNumber : string }.

Record Contact := {
  Number : string;
  Name : string }.

(** [Timestamp] is an [int64]; the code never computes with it, so the model
    takes [Z] and every statement below holds for the [int64] values too. *)
Record Message := {
  Content : string;
  From : string;
  Timestamp : Z;
  IsDelivered : bool;
  IsRead : bool }.

(** [Messages] maps a timestamp to a [*Message]; the field [Contact] of the
    source is [ConvContact] here (the name is taken by the record).  Every
    conversation of the package comes from [NewConversation], which makes
    the map: a [nil] map is not modelled. *)
Record Conversation := {
  ConvContact : loc;
  Messages : gmap Z loc;
  MessageOrder : list Z;
  HasNewMessage : bool }.

(** The [Siggo] struct.  [signal] holds the state of the transport behind the
    [SignalAPI] interface.  The function field [NewInfo] is not a field here:
    calling it is recorded as the event [EvNewInfo]. *)
Record Siggo (T : Type) := {
  config : Config;
  contacts : gmap string loc;
  conversations : gmap loc loc;
  signal : T }.

Arguments config {T} _.
Arguments contacts {T} _.
Arguments conversations {T} _.
Arguments signal {T} _.

(** Calls whose effect lies outside the model. *)
Inductive Event :=
  | EvLogNewContact (c : loc)          (* log.Printf("New contact: %v", c) *)
  | EvLogNewConversation (c : loc)     (* log.Printf("new conversation for contact: %v", c) *)
  | EvPrintAdding (c : loc)            (* fmt.Printf("Adding conversation for: %+v\n", contact) *)
  | EvNewInfo (conv : loc).            (* s.NewInfo(conv) *)

Record World (T : Type) := {
  contactStore : gmap loc Contact;
  messageStore : gmap loc Message;
  convStore : gmap loc Conversation;
  siggo : Siggo T;
  events : list Event }.

Arguments contactStore {T} _.
Arguments messageStore {T} _.
Arguments convStore {T} _.
Arguments siggo {T} _.
Arguments events {T} _.

(** ** The monad: state passing over the world, [None] is a panic *)

Definition M (T A : Type) : Type := World T → option (A * World T).

Definition ret {T A} (a : A) : M T A := λ w, Some (a, w).

Definition bind {T A B} (m : M T A) (k : A → M T B) : M T B :=
  λ w, match m w with
       | Some (a, w') => k a w'
       | None => None
       end.

Definition panic {T A} : M T A := λ _, None.

Declare Scope go_scope.
Delimit Scope go_scope with go.
Notation "x <- m ;; k" := (bind m (λ x, k))
  (at level 100, m at next level, right associativity) : go_scope.
Notation "m ;; k" := (bind m (λ _, k))
  (at level 100, right associativity) : go_scope.

(** The interface [SignalAPI].  A callback is a method value of the model
    ([s.onReceived], [s.onReceipt]): a computation on the world.  [Receive]
    pumps the transport's event loop and is not modelled. *)
Definition Callback (T : Type) : Type := signal.Message → M T error.

Class SignalAPI (T : Type) := {
  signal_Send : T → string → string → T * error;
  signal_OnReceived : T → Callback T → T;
  signal_OnReceipt : T → Callback T → T }.

Section model.
Context {T : Type} `{!SignalAPI T}.

Local Open Scope go_scope.

(** *** Loads and stores *)

Definition load_contact (c : loc) : M T Contact :=
  λ w, (λ x, (x, w)) <$> contactStore w !! c.

Definition load_message (m : loc) : M T Message :=
  λ w, (λ x, (x, w)) <$> messageStore w !! m.

Definition load_conv (c : loc) : M T Conversation :=
  λ w, (λ x, (x, w)) <$> convStore w !! c.

Definition set_contactStore (f : gmap loc Contact → gmap loc Contact) (w : World T) : World T :=
  {| contactStore := f (contactStore w); messageStore := messageStore w;
     convStore := convStore w; siggo := siggo w; events := events w |}.

Definition set_messageStore (f : gmap loc Message → gmap loc Message) (w : World T) : World T :=
  {| contactStore := contactStore w; messageStore := f (messageStore w);
     convStore := convStore w; siggo := siggo w; events := events w |}.

Definition set_convStore (f : gmap loc Conversation → gmap loc Conversation)
    (w : World T) : World T :=
  {| contactStore := contactStore w; messageStore := messageStore w;
     convStore := f (convStore w); siggo := siggo w; events := events w |}.

Definition set_siggo (f : Siggo T → Siggo T) (w : World T) : World T :=
  {| contactStore := contactStore w; messageStore := messageStore w;
     convStore := convStore w; siggo := f (siggo w); events := events w |}.

Definition emit (e : Event) : M T unit :=
  λ w, Some (tt, {| contactStore := contactStore w; messageStore := messageStore w;
                    convStore := convStore w; siggo := siggo w;
                    events := events w ++ [e] |}).

Definition modify (f : World T → World T) : M T unit := λ w, Some (tt, f w).

Definition get_siggo : M T (Siggo T) := λ w, Some (siggo w, w).

(** [&Contact{...}], [&Message{...}], [&Conversation{...}] *)
Definition alloc_contact (c : Contact) : M T loc :=
  λ w, let l := fresh_loc (contactStore w) in
       Some (l, set_contactStore (insert l c) w).

Definition alloc_message (m : Message) : M T loc :=
  λ w, let l := fresh_loc (messageStore w) in
       Some (l, set_messageStore (insert l m) w).

Definition alloc_conv (c : Conversation) : M T loc :=
  λ w, let l := fresh_loc (convStore w) in
       Some (l, set_convStore (insert l c) w).

(** A write through a pointer: panics on a location that holds nothing. *)
Definition store_message (l : loc) (m : Message) : M T unit :=
  λ w, match messageStore w !! l with
       | Some _ => Some (tt, set_messageStore (insert l m) w)
       | None => None
       end.

Definition store_conv (l : loc) (c : Conversation) : M T unit :=
  λ w, match convStore w !! l with
       | Some _ => Some (tt, set_convStore (insert l c) w)
       | None => None
       end.

(** *** Message and Conversation *)

(** [fmt.Sprintf("%d|%s%s %s: %s\n", ...)]; ["\n"] is the byte 10. *)
Definition Message_String (m : Message) : string :=
  pretty (Timestamp m) +:+ "|" +:+ DeliveryStatus (IsDelivered m)
    +:+ ReadStatus (IsRead m) +:+ " " +:+ From m +:+ ": " +:+ Content m
    +:+ String "010"%char "".

(** [(c *Conversation).String]: the loop appends to [out]; the method call
    on [c.Messages[k]] dereferences it, and a key of [MessageOrder] missing
    from [Messages] yields [nil]. *)
Fixpoint Conversation_String_loop (msgs : gmap loc Message) (c : Conversation)
    (keys : list Z) (out : string) : option string :=
  match keys with
  | [] => Some out
  | k :: keys' =>
      match Messages c !! k with
      | Some l =>
          match msgs !! l with
          | Some m => Conversation_String_loop msgs c keys' (out +:+ Message_String m)
          | None => None
          end
      | None => None
      end
  end.

Definition Conversation_String (c : loc) : M T string :=
  conv <- load_conv c ;;
  λ w, (λ s, (s, w)) <$> Conversation_String_loop (messageStore w) conv (MessageOrder conv) "".

Definition set_Messages (f : gmap Z loc → gmap Z loc) (c : Conversation) : Conversation :=
  {| ConvContact := ConvContact c; Messages := f (Messages c);
     MessageOrder := MessageOrder c; HasNewMessage := HasNewMessage c |}.

Definition set_MessageOrder (f : list Z → list Z) (c : Conversation) : Conversation :=
  {| ConvContact := ConvContact c; Messages := Messages c;
     MessageOrder := f (MessageOrder c); HasNewMessage := HasNewMessage c |}.

Definition set_HasNewMessage (b : bool) (c : Conversation) : Conversation :=
  {| ConvContact := ConvContact c; Messages := Messages c;
     MessageOrder := MessageOrder c; HasNewMessage := b |}.

(** An assignment to a field of [*c]. *)
Definition update_conv (c : loc) (f : Conversation → Conversation) : M T unit :=
  conv <- load_conv c ;;
  store_conv c (f conv).

Definition AddMessage (c : loc) (message : loc) : M T unit :=
  conv <- load_conv c ;;
  m <- load_message message ;;
  let ok := bool_decide (is_Some (Messages conv !! Timestamp m)) in
  update_conv c (set_Messages (insert (Timestamp m) message)) ;;
  if negb ok then
    (* new messages *)
    update_conv c (set_MessageOrder (λ o, o ++ [Timestamp m])) ;;
    update_conv c (set_HasNewMessage true)
  else ret tt.

Definition NewConversation (contact : loc) : M T loc :=
  alloc_conv {| ConvContact := contact; Messages := ∅;
                MessageOrder := []; HasNewMessage := false |}.

(** *** Siggo *)

Definition set_contacts (f : gmap string loc → gmap string loc) (s : Siggo T) : Siggo T :=
  {| config := config s; contacts := f (contacts s);
     conversations := conversations s; signal := signal s |}.

Definition set_conversations (f : gmap loc loc → gmap loc loc) (s : Siggo T) : Siggo T :=
  {| config := config s; contacts := contacts s;
     conversations := f (conversations s); signal := signal s |}.

Definition set_signal (t : T) (s : Siggo T) : Siggo T :=
  {| config := config s; contacts := contacts s;
     conversations := conversations s; signal := t |}.

Definition newConversation (contact : loc) : M T loc :=
  conv <- NewConversation contact ;;
  modify (set_siggo (set_conversations (insert contact conv))) ;;
  ret conv.

Definition newContact (number : string) : M T loc :=
  contact <- alloc_contact {| Number := number; Name := "" |} ;;
  modify (set_siggo (set_contacts (insert number contact))) ;;
  ret contact.

Definition onSend (message conv : loc) : M T unit := ret tt.

(** [s.signal.Send(number, msg)] *)
Definition call_signal_Send (number msg : string) : M T error :=
  λ w, let r := signal_Send (signal (siggo w)) number msg in
       Some (r.2, set_siggo (set_signal r.1) w).

Definition Send (msg : string) (contact : loc) : M T error :=
  s <- get_siggo ;;
  conv <- match conversations s !! contact with
          | Some conv => ret conv
          | None => newConversation contact
          end ;;
  message <- alloc_message {| Content := msg; From := UserName (config s);
                              Timestamp := 0; IsDelivered := false;
                              IsRead := false |} ;;
  onSend message conv ;;
  (* actually send the message *)
  ct <- load_contact contact ;;
  call_signal_Send (Number ct) msg.

Definition onReceived (msg : signal.Message) : M T error :=
  let receiveMsg := signal.Envelope_DataMessage (signal.Message_Envelope msg) in
  let contactNumber := signal.Source (signal.Message_Envelope msg) in
  s <- get_siggo ;;
  cf <-
    match contacts s !! contactNumber with
    | None =>
        c <- alloc_contact {| Number := contactNumber; Name := "" |} ;;
        emit (EvLogNewContact c) ;;
        ct <- load_contact c ;;
        modify (set_siggo (set_contacts (insert (Number ct) c))) ;;
        ret (c, contactNumber)
    | Some c =>
        ct <- load_contact c ;;
        if decide (Name ct = "") then ret (c, contactNumber)
        else ret (c, Name ct)
    end ;;
  let c := cf.1 in
  let fromStr := cf.2 in
  message <- alloc_message {| Content := signal.DataMessage_Message receiveMsg;
                              From := fromStr;
                              Timestamp := signal.DataMessage_Timestamp receiveMsg;
                              IsDelivered := true;
                              IsRead := false |} ;;
  s <- get_siggo ;;
  conv <- match conversations s !! c with
          | Some conv => ret conv
          | None => emit (EvLogNewConversation c) ;; newConversation c
          end ;;
  AddMessage conv message ;;
  emit (EvNewInfo conv) ;;
  ret None.

Definition set_IsDelivered (b : bool) (m : Message) : Message :=
  {| Content := Content m; From := From m; Timestamp := Timestamp m;
     IsDelivered := b; IsRead := IsRead m |}.

Definition set_IsRead (b : bool) (m : Message) : Message :=
  {| Content := Content m; From := From m; Timestamp := Timestamp m;
     IsDelivered := IsDelivered m; IsRead := b |}.

(** An assignment to a field of [*message]. *)
Definition update_message (l : loc) (f : Message → Message) : M T unit :=
  m <- load_message l ;;
  store_message l (f m).

(** [for _, ts := range receiptMsg.Timestamps { ... }] *)
Fixpoint onReceipt_loop (conv : loc) (receiptMsg : signal.ReceiptMessage)
    (tss : list Z) : M T unit :=
  match tss with
  | [] => ret tt
  | ts :: tss' =>
      cv <- load_conv conv ;;
      match Messages cv !! ts with
      | None => onReceipt_loop conv receiptMsg tss'
      | Some message =>
          update_message message
            (set_IsDelivered (signal.ReceiptMessage_IsDelivery receiptMsg)) ;;
          update_message message
            (set_IsRead (signal.ReceiptMessage_IsRead receiptMsg)) ;;
          onReceipt_loop conv receiptMsg tss'
      end
  end.

Definition onReceipt (msg : signal.Message) : M T error :=
  let receiptMsg := signal.Envelope_ReceiptMessage (signal.Message_Envelope msg) in
  let contactNumber := signal.Source (signal.Message_Envelope msg) in
  s <- get_siggo ;;
  c <- match contacts s !! contactNumber with
       | Some c => ret c
       | None => newContact contactNumber
       end ;;
  s <- get_siggo ;;
  conv <- match conversations s !! c with
          | Some conv => ret conv
          | None => newConversation c
          end ;;
  onReceipt_loop conv receiptMsg (signal.ReceiptMessage_Timestamps receiptMsg) ;;
  ret None.

Definition Conversations : M T (gmap loc loc) :=
  s <- get_siggo ;; ret (conversations s).

Definition Contacts : M T (gmap string loc) :=
  s <- get_siggo ;; ret (contacts s).

Definition GetContacts (userNumber : string) : M T (gmap string loc) :=
  c <- alloc_contact {| Number := userNumber; Name := "me" |} ;;
  ret (<[userNumber := c]> ∅).

(** [for _, contact := range contacts { ... }]: Go leaves the order of the
    iteration open; the model takes the order of [map_to_list]. *)
Fixpoint GetConversations_loop (cs : list (string * loc))
    (conversations : gmap loc loc) : M T (gmap loc loc) :=
  match cs with
  | [] => ret conversations
  | (_, contact) :: cs' =>
      emit (EvPrintAdding contact) ;;
      conv <- NewConversation contact ;;
      GetConversations_loop cs' (<[contact := conv]> conversations)
  end.

Definition GetConversations (userNumber : string) (contacts : gmap string loc)
    : M T (gmap loc loc) :=
  GetConversations_loop (map_to_list contacts) ∅.

(** [NewSiggo] builds the [Siggo] of the world from the stores as they
    are; whatever [siggo] held before is not read. *)
Definition NewSiggo (sig : T) (config : Config) : M T unit :=
  contacts <- GetContacts (UserNumber config) ;;
  conversations <- GetConversations (UserNumber config) contacts ;;
  modify (set_siggo (λ _, {| config := config; contacts := contacts;
                             conversations := conversations; signal := sig |})) ;;
  modify (set_siggo (λ s, set_signal (signal_OnReceived (signal s) onReceived) s)) ;;
  modify (set_siggo (λ s, set_signal (signal_OnReceipt (signal s) onReceipt) s)).

(** The world at program start: nothing allocated, and a [Siggo] that
    [NewSiggo] is about to replace. *)
Definition boot (sig : T) (config : Config) : World T :=
  {| contactStore := ∅; messageStore := ∅; convStore := ∅;
     siggo := {| config := config; contacts := ∅; conversations := ∅;
                 signal := sig |};
     events := [] |}.

(** *** Invariants *)

(** What Go's memory safety gives for the pointers the model reaches: the
    registries and the conversations hold no [nil] and nothing dangling. *)
Definition wf (w : World T) : Prop :=
  map_Forall (λ _ c, is_Some (contactStore w !! c)) (contacts (siggo w)) ∧
  map_Forall (λ c cv, is_Some (contactStore w !! c) ∧ is_Some (convStore w !! cv))
    (conversations (siggo w)) ∧
  map_Forall (λ _ conv, map_Forall (λ _ l, is_Some (messageStore w !! l)) (Messages conv))
    (convStore w).

#[export] Instance wf_dec (w : World T) : Decision (wf w).
Proof. unfold wf. apply _. Defined.

(** The key-and-order invariant of a conversation: [MessageOrder] lists
    the keys of [Messages], each once. *)
Definition ordered (conv : Conversation) : Prop :=
  NoDup (MessageOrder conv) ∧
  ∀ k, k ∈ MessageOrder conv ↔ is_Some (Messages conv !! k).

Definition all_ordered (w : World T) : Prop :=
  map_Forall (λ _ conv, ordered conv) (convStore w).

(** *** Runs *)

(** A finite sequence of [AddMessage] calls on one conversation. *)
Fixpoint AddMessages (c : loc) (ms : list loc) : M T unit :=
  match ms with
  | [] => ret tt
  | message :: ms' => AddMessage c message ;; AddMessages c ms'
  end.

(** One call into the model that returns: an event from the transport, or
    [Send] or [AddMessage] from the user of the package.  A panic ends the
    run; the model keeps no world after it. *)
Inductive step : World T → World T → Prop :=
  | step_onReceived msg r w w' : onReceived msg w = Some (r, w') → step w w'
  | step_onReceipt msg r w w' : onReceipt msg w = Some (r, w') → step w w'
  | step_Send text contact r w w' : Send text contact w = Some (r, w') → step w w'
  | step_AddMessage c message w w' : AddMessage c message w = Some (tt, w') → step w w'.

(** The worlds a session over the transport [sig] can be in. *)
Definition reachable (sig : T) (config : Config) (w : World T) : Prop :=
  ∃ w0, NewSiggo sig config (boot sig config) = Some (tt, w0) ∧ rtc step w0 w.

(** *** Vocabulary of the statements *)

(** The locals [receiptMsg] and [contactNumber] of the two handlers. *)
Definition receiptMsg (msg : signal.Message) : signal.ReceiptMessage :=
  signal.Envelope_ReceiptMessage (signal.Message_Envelope msg).

Definition contactNumber (msg : signal.Message) : string :=
  signal.Source (signal.Message_Envelope msg).

(** The conversation a sender identifier resolves to, if both registries
    know it. *)
Definition resolved_conv (w : World T) (number : string) : option Conversation :=
  c ← contacts (siggo w) !! number;
  cv ← conversations (siggo w) !! c;
  convStore w !! cv.

(** The event [msg] with the timestamp [ts] taken out of its receipt. *)
Definition without_timestamp (ts : Z) (msg : signal.Message) : signal.Message :=
  {| signal.Message_Envelope :=
       {| signal.Source := contactNumber msg;
          signal.Envelope_DataMessage :=
            signal.Envelope_DataMessage (signal.Message_Envelope msg);
          signal.Envelope_ReceiptMessage :=
            {| signal.ReceiptMessage_IsDelivery :=
                 signal.ReceiptMessage_IsDelivery (receiptMsg msg);
               signal.ReceiptMessage_IsRead :=
                 signal.ReceiptMessage_IsRead (receiptMsg msg);
               signal.ReceiptMessage_Timestamps :=
                 filter (λ t, t ≠ ts)
                   (signal.ReceiptMessage_Timestamps (receiptMsg msg)) |} |} |}.

(** The conversation registered for [contact] holds a Message with the
    text [text] that is still pending. *)
Definition holds_pending (w : World T) (text : string) (contact : loc) : Prop :=
  ∃ cv conv ts l m,
    conversations (siggo w) !! contact = Some cv ∧
    convStore w !! cv = Some conv ∧
    Messages conv !! ts = Some l ∧
    messageStore w !! l = Some m ∧
    Content m = text ∧ IsDelivered m = false ∧ IsRead m = false.

(** *** Closed forms, related to the code by the lemmas [*_run] *)

(** The record that [AddMessage] leaves at [c]. *)
Definition AddMessage_result (conv : Conversation) (ts : Z) (message : loc) : Conversation :=
  match Messages conv !! ts with
  | Some _ => set_Messages (insert ts message) conv
  | None =>
      set_HasNewMessage true
        (set_MessageOrder (λ o, o ++ [ts]) (set_Messages (insert ts message) conv))
  end.

(** The Message [onReceived] builds for [msg] with the display name [from]. *)
Definition received_message (msg : signal.Message) (from : string) : Message :=
  {| Content := signal.DataMessage_Message
                  (signal.Envelope_DataMessage (signal.Message_Envelope msg));
     From := from;
     Timestamp := signal.DataMessage_Timestamp
                    (signal.Envelope_DataMessage (signal.Message_Envelope msg));
     IsDelivered := true;
     IsRead := false |}.

(** The two field assignments of the receipt loop, on one Message. *)
Definition apply_receipt (r : signal.ReceiptMessage) (m : Message) : Message :=
  set_IsRead (signal.ReceiptMessage_IsRead r)
    (set_IsDelivered (signal.ReceiptMessage_IsDelivery r) m).

(** The Messages a receipt reaches in a conversation: the pointers stored
    under the timestamps of the receipt, in the order of the receipt. *)
Definition targets (conv : Conversation) (tss : list Z) : list loc :=
  omap (λ ts, Messages conv !! ts) tss.

(** The message store after the receipt loop. *)
Definition marked (r : signal.ReceiptMessage) (ls : list loc)
    (msgs : gmap loc Message) : gmap loc Message :=
  foldl (λ σ l, alter (apply_receipt r) l σ) msgs ls.

(** *** Further closed forms and relations *)

(** The lookup-or-create of a contact, as [onReceipt] has it inline: the
    pointer and the world after it. *)
Definition resolve_contact (number : string) (w : World T) : loc * World T :=
  match contacts (siggo w) !! number with
  | Some c => (c, w)
  | None =>
      (fresh_loc (contactStore w),
       set_siggo (set_contacts (insert number (fresh_loc (contactStore w))))
         (set_contactStore
            (insert (fresh_loc (contactStore w)) {| Number := number; Name := "" |}) w))
  end.

(** The lookup-or-create of a conversation, as [Send] and [onReceipt] have
    it inline. *)
Definition resolve_conversation (c : loc) (w : World T) : loc * World T :=
  match conversations (siggo w) !! c with
  | Some cv => (cv, w)
  | None =>
      (fresh_loc (convStore w),
       set_siggo (set_conversations (insert c (fresh_loc (convStore w))))
         (set_convStore
            (insert (fresh_loc (convStore w))
               {| ConvContact := c; Messages := ∅; MessageOrder := [];
                  HasNewMessage := false |}) w))
  end.

(** Both, for a sender identifier: the conversation pointer and the world. *)
Definition resolve (number : string) (w : World T) : loc * World T :=
  resolve_conversation (resolve_contact number w).1 (resolve_contact number w).2.

(** [w'] keeps what [w] has: no registry entry is removed or replaced, no
    Contact changes, no Message is removed or changes its text, sender or
    timestamp, no conversation is removed, changes its contact, loses a key
    or an entry of its order, or has [HasNewMessage] cleared, and the trace
    only grows. *)
Definition extends (w w' : World T) : Prop :=
  (∀ n c, contacts (siggo w) !! n = Some c → contacts (siggo w') !! n = Some c) ∧
  (∀ c cv, conversations (siggo w) !! c = Some cv →
           conversations (siggo w') !! c = Some cv) ∧
  (∀ c ct, contactStore w !! c = Some ct → contactStore w' !! c = Some ct) ∧
  (∀ l m, messageStore w !! l = Some m →
     ∃ m', messageStore w' !! l = Some m' ∧ Content m' = Content m ∧
           From m' = From m ∧ Timestamp m' = Timestamp m) ∧
  (∀ cv conv, convStore w !! cv = Some conv →
     ∃ conv', convStore w' !! cv = Some conv' ∧
              ConvContact conv' = ConvContact conv ∧
              MessageOrder conv `prefix_of` MessageOrder conv' ∧
              (∀ k, is_Some (Messages conv !! k) → is_Some (Messages conv' !! k)) ∧
              (HasNewMessage conv = true → HasNewMessage conv' = true)) ∧
  events w `prefix_of` events w'.

(** Keys agree with what they point to: a contact is registered under its
    own number, a conversation under its own contact, and a Message is
    stored under its own timestamp. *)
Definition keyed (w : World T) : Prop :=
  (∀ n c ct, contacts (siggo w) !! n = Some c → contactStore w !! c = Some ct →
             Number ct = n) ∧
  (∀ c cv conv, conversations (siggo w) !! c = Some cv → convStore w !! cv = Some conv →
                ConvContact conv = c) ∧
  (∀ cv conv ts l m, convStore w !! cv = Some conv → Messages conv !! ts = Some l →
                     messageStore w !! l = Some m → Timestamp m = ts).

End model.

(** ** The specification's words, for comparison with the code *)

(** The timestamps of a sequence in the order they were first seen. *)
Fixpoint first_insertions (seen : list Z) (tss : list Z) : list Z :=
  match tss with
  | [] => []
  | ts :: tss' =>
      if decide (ts ∈ seen) then first_insertions seen tss'
      else ts :: first_insertions (ts :: seen) tss'
  end.

Definition deliveryGlyph (m : Message) : string :=
  if IsDelivered m then "<" else "?".

Definition readGlyph (m : Message) : string :=
  if IsRead m then ">" else "?".

(** [timestamp|<deliveryGlyph><readGlyph> from: content] *)
Definition line_form (m : Message) : string :=
  pretty (Timestamp m) +:+ "|" +:+ deliveryGlyph m +:+ readGlyph m
    +:+ " " +:+ From m +:+ ": " +:+ Content m.

Definition newline : string := String "010"%char "".

(** The line of the Message stored under the key [k], newline included. *)
Definition stored_line (msgs : gmap loc Message) (c : Conversation) (k : Z) : option string :=
  l ← Messages c !! k;
  m ← msgs !! l;
  Some (line_form m +:+ newline).

(** The concatenation, in [MessageOrder], of the stored lines. *)
Definition rendered (msgs : gmap loc Message) (c : Conversation) : option string :=
  String.concat "" <$> mapM (stored_line msgs c) (MessageOrder c).

(** ** Runs on concrete worlds *)

Module Examples.

(** A transport without state whose [Send] always succeeds. *)
#[export] Instance ok_transport : SignalAPI unit := {|
  signal_Send := λ _ _ _, (tt, None);
  signal_OnReceived := λ t _, t;
  signal_OnReceipt := λ t _, t |}.

(** A transport that counts the calls of [Send] and fails each of them. *)
#[export] Instance failing_transport : SignalAPI nat := {|
  signal_Send := λ n _ _, (S n, Some "send failed");
  signal_OnReceived := λ t _, t;
  signal_OnReceipt := λ t _, t |}.

Definition cfg : Config := {| UserName := "self"; UserNumber := "+1000" |}.

Definition received (src text : string) (ts : Z) : signal.Message :=
  {| signal.Message_Envelope :=
       {| signal.Source := src;
          signal.Envelope_DataMessage :=
            {| signal.DataMessage_Message := text; signal.DataMessage_Timestamp := ts |};
          signal.Envelope_ReceiptMessage :=
            {| signal.ReceiptMessage_IsDelivery := false;
               signal.ReceiptMessage_IsRead := false;
               signal.ReceiptMessage_Timestamps := [] |} |} |}.

Definition receipt (src : string) (delivered read : bool) (tss : list Z) : signal.Message :=
  {| signal.Message_Envelope :=
       {| signal.Source := src;
          signal.Envelope_DataMessage :=
            {| signal.DataMessage_Message := ""; signal.DataMessage_Timestamp := 0 |};
          signal.Envelope_ReceiptMessage :=
            {| signal.ReceiptMessage_IsDelivery := delivered;
               signal.ReceiptMessage_IsRead := read;
               signal.ReceiptMessage_Timestamps := tss |} |} |}.

(** The rendered conversation of the sender [src], after running [m] from
    the world [NewSiggo] builds at program start. *)
Definition rendered_after {A} (m : M unit A) (src : string) : option string :=
  match (NewSiggo tt cfg ;; m ;;
         s <- get_siggo ;;
         match contacts s !! src with
         | Some c => match conversations s !! c with
                     | Some cv => Conversation_String cv
                     | None => panic
                     end
         | None => panic
         end)%go (boot tt cfg) with
  | Some (out, _) => Some out
  | None => None
  end.

(** The world after [m], run from the world [NewSiggo] builds at program
    start over the transport state [sig]. *)
Definition world_after {T A} `{!SignalAPI T} (sig : T) (m : M T A) : World T :=
  match (NewSiggo sig cfg ;; m)%go (boot sig cfg) with
  | Some (_, w) => w
  | None => boot sig cfg
  end.

(** Just started; after one message from "+1555"; the same, over the
    failing transport. *)
Definition started : World unit := world_after tt (ret tt).

Definition heard : World unit :=
  world_after tt (onReceived (received "+1555" "hi" 100)).

Definition heard_twice : World unit :=
  world_after tt (onReceived (received "+1555" "hi" 100) ;;
                  onReceived (received "+1555" "yo" 50))%go.

Definition started_failing : World nat := world_after 0%nat (ret tt).

Definition me : Contact := {| Number := "+1000"; Name := "me" |}.

Definition hi : Message :=
  {| Content := "hi"; From := "+1555"; Timestamp := 100;
     IsDelivered := true; IsRead := false |}.

Definition yo : Message :=
  {| Content := "yo"; From := "+1555"; Timestamp := 50;
     IsDelivered := true; IsRead := false |}.

Definition hi_conv : Conversation :=
  {| ConvContact := 2%positive; Messages := {[ 100%Z := 1%positive ]};
     MessageOrder := [100%Z]; HasNewMessage := true |}.

(** A Contact built by the caller, with a number the registry does not
    know, in the world just started. *)
Definition stranger : Contact := {| Number := "+1777"; Name := "Ada" |}.

Definition with_stranger : World unit :=
  set_contactStore (insert 5%positive stranger) started.

(** After one message from "+1555", a second Message with the same
    timestamp is at hand, not yet added. *)
Definition hi_again : Message :=
  {| Content := "hi again"; From := "+1555"; Timestamp := 100;
     IsDelivered := true; IsRead := false |}.

Definition redelivered : World unit :=
  set_messageStore (insert 2%positive hi_again) heard.

End Examples.

(** ** Proofs *)

(** *** Strings *)

Lemma append_assoc (a b c : string) : (a +:+ b) +:+ c = a +:+ b +:+ c.
Proof.
  induction a as [|ch a IH]; [done|].
  change (String ch ((a +:+ b) +:+ c) = String ch (a +:+ b +:+ c)).
  by rewrite IH.
Qed.

Lemma append_nil_r (a : string) : a +:+ "" = a.
Proof.
  induction a as [|ch a IH]; [done|].
  change (String ch (a +:+ "") = String ch a).
  by rewrite IH.
Qed.

(** *** First insertions *)

Lemma first_insertions_elem (seen tss : list Z) (k : Z) :
  k ∈ first_insertions seen tss ↔ k ∈ tss ∧ k ∉ seen.
Proof.
  revert seen. induction tss as [|ts tss IH]; intros seen; simpl.
  { rewrite !elem_of_nil. tauto. }
  destruct (decide (ts ∈ seen)) as [Hin|Hnin].
  - rewrite IH, elem_of_cons. split; [tauto|]. intros [[->|?] ?]; tauto.
  - rewrite !elem_of_cons, IH, elem_of_cons.
    destruct (decide (k = ts)) as [->|Hne]; tauto.
Qed.

Lemma first_insertions_NoDup (seen tss : list Z) : NoDup (first_insertions seen tss).
Proof.
  revert seen. induction tss as [|ts tss IH]; intros seen; simpl.
  { constructor. }
  destruct (decide (ts ∈ seen)); [apply IH|].
  constructor; [|apply IH].
  rewrite first_insertions_elem, elem_of_cons. tauto.
Qed.

Lemma first_insertions_ext (seen seen' tss : list Z) :
  (∀ k, k ∈ seen ↔ k ∈ seen') →
  first_insertions seen tss = first_insertions seen' tss.
Proof.
  revert seen seen'. induction tss as [|ts tss IH]; intros seen seen' Heq; simpl; [done|].
  destruct (decide (ts ∈ seen)) as [Hin|Hnin], (decide (ts ∈ seen')) as [Hin'|Hnin'].
  - by apply IH.
  - by apply Heq in Hin.
  - by apply Heq in Hin'.
  - f_equal. apply IH. intros k. rewrite !elem_of_cons, Heq. tauto.
Qed.

Lemma first_insertions_length (tss : list Z) :
  length (first_insertions [] tss) = size (list_to_set tss : gset Z).
Proof.
  rewrite <-(size_list_to_set (C := gset Z)) by apply first_insertions_NoDup.
  f_equal. apply set_eq. intros k.
  rewrite !elem_of_list_to_set, first_insertions_elem, elem_of_nil. tauto.
Qed.

Section proofs.
Context {T : Type} `{!SignalAPI T}.
Implicit Types (w : World T) (c cv l : loc) (conv : Conversation) (m : Message).

(** *** Rendering *)

Lemma Message_String_line_form m : Message_String m = line_form m +:+ newline.
Proof.
  unfold Message_String, line_form, deliveryGlyph, readGlyph, newline.
  rewrite !append_assoc. by destruct (IsDelivered m), (IsRead m).
Qed.

Lemma Conversation_String_loop_acc (msgs : gmap loc Message) conv keys out :
  Conversation_String_loop msgs conv keys out
  = (λ ls, out +:+ String.concat "" ls) <$> mapM (stored_line msgs conv) keys.
Proof.
  revert out. induction keys as [|k keys IH]; intros out; simpl.
  { by rewrite append_nil_r. }
  assert (stored_line msgs conv k
          = match Messages conv !! k with
            | Some l => match msgs !! l with
                        | Some m => Some (line_form m +:+ newline)
                        | None => None
                        end
            | None => None
            end) as ->.
  { unfold stored_line. by destruct (Messages conv !! k). }
  destruct (Messages conv !! k) as [l|]; [|done].
  destruct (msgs !! l) as [m|]; [|done].
  rewrite IH, Message_String_line_form. simpl.
  destruct (mapM _ keys) as [ls|]; simpl; [|done].
  destruct ls; simpl; by rewrite ?append_assoc, ?append_nil_r.
Qed.

(** *** Stepping through the monad *)

Lemma bind_Some {A B} (f : M T A) (k : A → M T B) w a w1 :
  f w = Some (a, w1) → bind f k w = k a w1.
Proof. unfold bind. by intros ->. Qed.

(** Run the first computation of a [bind] with the equation [E : f w = Some _]. *)
Tactic Notation "run_with" uconstr(E) := rewrite (bind_Some _ _ _ _ _ E).

Lemma bind_ret {A B} (a : A) (k : A → M T B) w : bind (ret a) k w = k a w.
Proof. done. Qed.

Lemma bind_get_siggo {B} (k : Siggo T → M T B) w : bind get_siggo k w = k (siggo w) w.
Proof. done. Qed.

Lemma bind_modify {B} (f : World T → World T) (k : unit → M T B) w :
  bind (modify f) k w = k tt (f w).
Proof. done. Qed.

Lemma bind_emit {B} (e : Event) (k : unit → M T B) w :
  bind (emit e) k w
  = k tt {| contactStore := contactStore w; messageStore := messageStore w;
            convStore := convStore w; siggo := siggo w;
            events := events w ++ [e] |}.
Proof. done. Qed.

Lemma bind_assoc {A B C} (f : M T A) (g : A → M T B) (k : B → M T C) w :
  bind (bind f g) k w = bind f (λ a, bind (g a) k) w.
Proof. unfold bind. destruct (f w) as [[a w1]|]; done. Qed.

Lemma bind_newConversation {B} (contact : loc) (k : loc → M T B) w :
  bind (newConversation contact) k w
  = k (fresh_loc (convStore w))
      (set_siggo (set_conversations (insert contact (fresh_loc (convStore w))))
         (set_convStore
            (insert (fresh_loc (convStore w))
               {| ConvContact := contact; Messages := ∅; MessageOrder := [];
                  HasNewMessage := false |}) w)).
Proof. done. Qed.

Lemma bind_newContact {B} (number : string) (k : loc → M T B) w :
  bind (newContact number) k w
  = k (fresh_loc (contactStore w))
      (set_siggo (set_contacts (insert number (fresh_loc (contactStore w))))
         (set_contactStore
            (insert (fresh_loc (contactStore w)) {| Number := number; Name := "" |}) w)).
Proof. done. Qed.

Lemma load_conv_Some w c conv :
  convStore w !! c = Some conv → load_conv c w = Some (conv, w).
Proof. unfold load_conv. by intros ->. Qed.

Lemma load_message_Some w l m :
  messageStore w !! l = Some m → load_message l w = Some (m, w).
Proof. unfold load_message. by intros ->. Qed.

Lemma load_contact_Some w c ct :
  contactStore w !! c = Some ct → load_contact c w = Some (ct, w).
Proof. unfold load_contact. by intros ->. Qed.

Lemma update_conv_Some w c conv f :
  convStore w !! c = Some conv →
  update_conv c f w = Some (tt, set_convStore (insert c (f conv)) w).
Proof.
  intros Hc. unfold update_conv.
  run_with (load_conv_Some _ _ _ Hc).
  unfold store_conv. by rewrite Hc.
Qed.

Lemma update_message_Some w l m f :
  messageStore w !! l = Some m →
  update_message l f w = Some (tt, set_messageStore (insert l (f m)) w).
Proof.
  intros Hl. unfold update_message.
  run_with (load_message_Some _ _ _ Hl).
  unfold store_message. by rewrite Hl.
Qed.

Lemma set_convStore_twice w c x y :
  set_convStore (insert c x) (set_convStore (insert c y) w)
  = set_convStore (insert c x) w.
Proof. unfold set_convStore; simpl. by rewrite insert_insert_eq. Qed.

Lemma set_convStore_id w c conv :
  convStore w !! c = Some conv → set_convStore (insert c conv) w = w.
Proof.
  intros Hc. destruct w; unfold set_convStore; simpl in *. by rewrite insert_id.
Qed.

(** *** AddMessage *)

Lemma AddMessage_run w c message conv m :
  convStore w !! c = Some conv →
  messageStore w !! message = Some m →
  AddMessage c message w
  = Some (tt, set_convStore (insert c (AddMessage_result conv (Timestamp m) message)) w).
Proof.
  intros Hc Hm. unfold AddMessage, AddMessage_result.
  run_with (load_conv_Some _ _ _ Hc).
  run_with (load_message_Some _ _ _ Hm).
  run_with (update_conv_Some _ _ _ _ Hc).
  destruct (Messages conv !! Timestamp m) as [old|] eqn:Hts.
  - by rewrite bool_decide_eq_true_2.
  - rewrite bool_decide_eq_false_2 by (by intros [??]). simpl.
    erewrite bind_Some; last first.
    { apply update_conv_Some. simpl. apply lookup_insert_eq. }
    erewrite update_conv_Some by (simpl; apply lookup_insert_eq).
    by rewrite !set_convStore_twice.
Qed.

Lemma ordered_empty (contact : loc) :
  ordered {| ConvContact := contact; Messages := ∅; MessageOrder := [];
             HasNewMessage := false |}.
Proof.
  split; simpl; [constructor|].
  intros k. rewrite elem_of_nil, lookup_empty. split; [done|]. by intros [??].
Qed.

Lemma AddMessage_result_order conv ts message :
  ordered conv →
  MessageOrder (AddMessage_result conv ts message)
  = MessageOrder conv ++ first_insertions (MessageOrder conv) [ts].
Proof.
  intros [_ Hkeys]. unfold AddMessage_result. simpl.
  destruct (Messages conv !! ts) as [old|] eqn:Hts.
  - rewrite decide_True by (apply Hkeys; eauto). simpl. by rewrite app_nil_r.
  - rewrite decide_False; [done|].
    rewrite Hkeys, Hts. by intros [??].
Qed.

Lemma AddMessage_result_ordered conv ts message :
  ordered conv → ordered (AddMessage_result conv ts message).
Proof.
  intros [Hnd Hkeys]. unfold AddMessage_result.
  destruct (Messages conv !! ts) as [old|] eqn:Hts; simpl; split; simpl.
  - done.
  - intros k. rewrite Hkeys. destruct (decide (k = ts)) as [->|Hne].
    + rewrite lookup_insert_eq, Hts. split; eauto.
    + by rewrite lookup_insert_ne.
  - apply NoDup_app. split_and!; [done| |apply NoDup_singleton].
    intros k Hk ->%list_elem_of_singleton.
    apply Hkeys in Hk. rewrite Hts in Hk. by destruct Hk.
  - intros k. rewrite elem_of_app, list_elem_of_singleton, Hkeys.
    destruct (decide (k = ts)) as [->|Hne].
    + rewrite lookup_insert_eq. split; eauto.
    + rewrite lookup_insert_ne by done. tauto.
Qed.

Lemma first_insertions_cons_step (order : list Z) ts tss :
  first_insertions order [ts]
    ++ first_insertions (order ++ first_insertions order [ts]) tss
  = first_insertions order (ts :: tss).
Proof.
  simpl. destruct (decide (ts ∈ order)) as [Hin|Hnin]; simpl.
  - by rewrite app_nil_r.
  - f_equal. apply first_insertions_ext. intros k.
    rewrite elem_of_app, !elem_of_cons, elem_of_nil. tauto.
Qed.

(** A run of [AddMessages] from an ordered conversation: it returns, touches
    only the record at [c], keeps it ordered and extends [MessageOrder] by
    the timestamps not seen before, in the order of their first call. *)
Lemma AddMessages_run (ms : list loc) (tss : list Z) (msgs : gmap loc Message) w c conv :
  messageStore w = msgs →
  convStore w !! c = Some conv →
  ordered conv →
  Forall2 (λ l ts, ∃ m, msgs !! l = Some m ∧ Timestamp m = ts) ms tss →
  ∃ conv',
    AddMessages c ms w = Some (tt, set_convStore (insert c conv') w) ∧
    ordered conv' ∧
    MessageOrder conv' = MessageOrder conv ++ first_insertions (MessageOrder conv) tss.
Proof.
  intros Hmsgs Hc Hord Hms. revert w conv Hmsgs Hc Hord.
  induction Hms as [|l ts ms tss (m & Hl & Hts) Hms IH]; intros w conv Hmsgs Hc Hord.
  - exists conv. simpl. rewrite app_nil_r. split_and!; [|done..].
    unfold ret. by rewrite set_convStore_id.
  - simpl AddMessages. rewrite <-Hmsgs in Hl.
    run_with (AddMessage_run _ _ _ _ _ Hc Hl). rewrite Hts.
    set (conv1 := AddMessage_result conv ts l).
    destruct (IH (set_convStore (insert c conv1) w) conv1) as (conv' & Hrun & Hord' & Horder).
    { done. }
    { simpl. apply lookup_insert_eq. }
    { by apply AddMessage_result_ordered. }
    exists conv'. rewrite Hrun, set_convStore_twice. split_and!; [done..|].
    rewrite Horder. unfold conv1. rewrite AddMessage_result_order by done.
    by rewrite <-app_assoc, first_insertions_cons_step.
Qed.

(** C1. [AddMessage] on a conversation [conv] at [c] and a Message [m] at
    [message] returns and changes the record at [c] only.  The timestamp
    of [m] now maps to [message] itself (the stored Message is replaced
    wholesale).  If the timestamp was not a key, it is appended to
    [MessageOrder] and [HasNewMessage] is set; if it was one,
    [MessageOrder] and [HasNewMessage] are as before. *)
Theorem AddMessage_spec w c message conv m :
  convStore w !! c = Some conv →
  messageStore w !! message = Some m →
  ∃ conv',
    AddMessage c message w = Some (tt, set_convStore (insert c conv') w) ∧
    ConvContact conv' = ConvContact conv ∧
    Messages conv' = <[Timestamp m := message]> (Messages conv) ∧
    match Messages conv !! Timestamp m with
    | None =>
        MessageOrder conv' = MessageOrder conv ++ [Timestamp m] ∧
        HasNewMessage conv' = true
    | Some _ =>
        MessageOrder conv' = MessageOrder conv ∧
        HasNewMessage conv' = HasNewMessage conv
    end.
Proof.
  intros Hc Hm. exists (AddMessage_result conv (Timestamp m) message).
  split; [by apply AddMessage_run|].
  unfold AddMessage_result.
  by destruct (Messages conv !! Timestamp m).
Qed.

(** C2. Any finite sequence of [AddMessage] calls on a conversation that
    starts empty returns and leaves a [MessageOrder] without duplicates,
    whose entries are exactly the keys of [Messages], whose length is the
    number of distinct timestamps inserted, and which lists the timestamps
    in the order of their first insertion. *)
Theorem AddMessages_order w c contact (ms : list loc) (tss : list Z) :
  convStore w !! c = Some {| ConvContact := contact; Messages := ∅;
                             MessageOrder := []; HasNewMessage := false |} →
  Forall2 (λ l ts, ∃ m, messageStore w !! l = Some m ∧ Timestamp m = ts) ms tss →
  ∃ conv',
    AddMessages c ms w = Some (tt, set_convStore (insert c conv') w) ∧
    NoDup (MessageOrder conv') ∧
    (∀ k, k ∈ MessageOrder conv' ↔ is_Some (Messages conv' !! k)) ∧
    length (MessageOrder conv') = size (list_to_set tss : gset Z) ∧
    MessageOrder conv' = first_insertions [] tss.
Proof.
  intros Hc Hms.
  destruct (AddMessages_run ms tss (messageStore w) w c _ eq_refl Hc)
    as (conv' & Hrun & [Hnd Hkeys] & Horder); [apply ordered_empty|done|].
  simpl in Horder. exists conv'. split_and!; [done..| |done].
  by rewrite Horder, first_insertions_length.
Qed.

(** C7. The rendered form of a conversation is the concatenation, following
    [MessageOrder], of the line forms of the stored Messages, each ended by
    a newline; rendering panics exactly when an entry of [MessageOrder] has
    no stored Message. *)
Theorem Conversation_String_rendered w c :
  Conversation_String c w
  = conv ← convStore w !! c;
    out ← rendered (messageStore w) conv;
    Some (out, w).
Proof.
  unfold Conversation_String, bind, load_conv, rendered.
  destruct (convStore w !! c) as [conv|]; simpl; [|done].
  rewrite Conversation_String_loop_acc.
  by destruct (mapM _ _).
Qed.

(** C10. Whatever the transport and the configuration, [NewSiggo] returns
    with exactly one contact, keyed by the configured user number and named
    "me", and exactly one conversation, which belongs to that contact and
    has no Messages, an empty [MessageOrder] and [HasNewMessage] unset. *)
Theorem NewSiggo_initial (sig : T) (cfg : Config) w :
  ∃ c cv w',
    NewSiggo sig cfg w = Some (tt, w') ∧
    contacts (siggo w') = {[ UserNumber cfg := c ]} ∧
    contactStore w' !! c = Some {| Number := UserNumber cfg; Name := "me" |} ∧
    conversations (siggo w') = {[ c := cv ]} ∧
    convStore w' !! cv = Some {| ConvContact := c; Messages := ∅;
                                 MessageOrder := []; HasNewMessage := false |}.
Proof.
  eexists _, _, _. unfold NewSiggo, GetContacts, GetConversations.
  unfold bind at 1. unfold alloc_contact at 1. unfold bind at 1. unfold ret at 1.
  rewrite insert_empty, map_to_list_singleton. simpl.
  split; [reflexivity|]. simpl.
  rewrite insert_empty. split_and!; [done| |done|].
  - apply lookup_insert_eq.
  - apply lookup_insert_eq.
Qed.

Lemma fresh_loc_None {V} (σ : gmap loc V) : σ !! fresh_loc σ = None.
Proof. apply not_elem_of_dom. unfold fresh_loc. apply is_fresh. Qed.

(** *** Well-formedness is kept by the building blocks *)

Lemma is_Some_insert {V} (σ : gmap loc V) (i k : loc) (x : V) :
  is_Some (σ !! k) → is_Some (<[i := x]> σ !! k).
Proof. intros Hk. rewrite lookup_insert. case_decide; eauto. Qed.

Lemma wf_newContact w (number : string) (ct : Contact) :
  wf w →
  wf (set_siggo (set_contacts (insert number (fresh_loc (contactStore w))))
        (set_contactStore (insert (fresh_loc (contactStore w)) ct) w)).
Proof.
  intros (Hcontacts & Hconvs & Hmsgs). unfold wf; simpl. split_and!; [| |done].
  - apply map_Forall_insert_2.
    + rewrite lookup_insert_eq. eauto.
    + intros n c Hn. apply is_Some_insert. by apply (Hcontacts n).
  - intros c cv Hc. destruct (Hconvs _ _ Hc) as [Hct Hcv].
    split; [by apply is_Some_insert|done].
Qed.

Lemma wf_newConversation w contact :
  wf w →
  is_Some (contactStore w !! contact) →
  wf (set_siggo (set_conversations (insert contact (fresh_loc (convStore w))))
        (set_convStore
           (insert (fresh_loc (convStore w))
              {| ConvContact := contact; Messages := ∅; MessageOrder := [];
                 HasNewMessage := false |}) w)).
Proof.
  intros (Hcontacts & Hconvs & Hmsgs) Hct. unfold wf; simpl. split_and!; [done| |].
  - apply map_Forall_insert_2.
    + split; [done|]. rewrite lookup_insert_eq. eauto.
    + intros c cv Hc. destruct (Hconvs _ _ Hc) as [Hct' Hcv].
      split; [done|by apply is_Some_insert].
  - apply map_Forall_insert_2; [apply map_Forall_empty|done].
Qed.

Lemma wf_messageStore w (σ' : gmap loc Message) :
  wf w →
  (∀ l, is_Some (messageStore w !! l) → is_Some (σ' !! l)) →
  wf (set_messageStore (λ _, σ') w).
Proof.
  intros (Hcontacts & Hconvs & Hmsgs) Hsub. unfold wf; simpl. split_and!; [done..|].
  intros cv conv Hcv ts l Hl. apply Hsub. by apply (Hmsgs cv conv Hcv ts).
Qed.

Lemma wf_AddMessage_result w cv conv (ts : Z) (message : loc) :
  wf w →
  convStore w !! cv = Some conv →
  is_Some (messageStore w !! message) →
  wf (set_convStore (insert cv (AddMessage_result conv ts message)) w).
Proof.
  intros (Hcontacts & Hconvs & Hmsgs) Hcv Hm. unfold wf; simpl. split_and!; [done| |].
  - intros c cv' Hc. destruct (Hconvs _ _ Hc) as [Hct Hcv'].
    split; [done|by apply is_Some_insert].
  - apply map_Forall_insert_2; [|done].
    assert (Messages (AddMessage_result conv ts message)
            = <[ts := message]> (Messages conv)) as ->.
    { unfold AddMessage_result. by destruct (Messages conv !! ts). }
    apply map_Forall_insert_2; [done|]. by apply (Hmsgs cv).
Qed.

Lemma wf_ext w w' :
  contactStore w' = contactStore w →
  messageStore w' = messageStore w →
  convStore w' = convStore w →
  contacts (siggo w') = contacts (siggo w) →
  conversations (siggo w') = conversations (siggo w) →
  wf w → wf w'.
Proof. unfold wf. by intros -> -> -> -> ->. Qed.

(** *** The receipt loop *)

Lemma apply_receipt_idemp (r : signal.ReceiptMessage) m :
  apply_receipt r (apply_receipt r m) = apply_receipt r m.
Proof. done. Qed.

Lemma marked_lookup (r : signal.ReceiptMessage) (ls : list loc) (msgs : gmap loc Message) l :
  marked r ls msgs !! l
  = if decide (l ∈ ls) then apply_receipt r <$> msgs !! l else msgs !! l.
Proof.
  unfold marked. revert msgs. induction ls as [|l' ls IH]; intros msgs; cbn [foldl].
  { rewrite decide_False; [done|]. apply not_elem_of_nil. }
  rewrite IH, lookup_alter.
  destruct (decide (l' = l)) as [->|Hne].
  - rewrite (decide_True (P := l ∈ l :: ls)) by left.
    destruct (decide (l ∈ ls)); [|done].
    destruct (msgs !! l); simpl; [|done]. by rewrite apply_receipt_idemp.
  - destruct (decide (l ∈ ls)) as [Hin|Hnin].
    + by rewrite decide_True by (by right).
    + rewrite decide_False; [done|]. rewrite elem_of_cons. by intros [?|?].
Qed.

Lemma elem_of_targets conv (tss : list Z) l :
  l ∈ targets conv tss ↔ ∃ ts, ts ∈ tss ∧ Messages conv !! ts = Some l.
Proof. unfold targets. apply list_elem_of_omap. Qed.

Lemma set_messageStore_same w : set_messageStore (λ _, messageStore w) w = w.
Proof. by destruct w. Qed.

Lemma receipt_step_store (r : signal.ReceiptMessage) (msgs : gmap loc Message) l m :
  msgs !! l = Some m →
  <[l := set_IsRead (signal.ReceiptMessage_IsRead r)
           (set_IsDelivered (signal.ReceiptMessage_IsDelivery r) m)]>
    (<[l := set_IsDelivered (signal.ReceiptMessage_IsDelivery r) m]> msgs)
  = alter (apply_receipt r) l msgs.
Proof.
  intros Hl. rewrite insert_insert_eq. apply map_eq. intros l'.
  rewrite lookup_insert, lookup_alter.
  destruct (decide (l = l')) as [<-|]; [|done]. by rewrite Hl.
Qed.

Lemma onReceipt_loop_run (r : signal.ReceiptMessage) (tss : list Z)
    (msgs : gmap loc Message) w cv conv :
  messageStore w = msgs →
  convStore w !! cv = Some conv →
  map_Forall (λ _ l, is_Some (msgs !! l)) (Messages conv) →
  onReceipt_loop cv r tss w
  = Some (tt, set_messageStore (λ _, marked r (targets conv tss) msgs) w).
Proof.
  revert msgs w. induction tss as [|ts tss IH]; intros msgs w Hmsgs Hcv Hall.
  { simpl. unfold ret. by rewrite <-Hmsgs, set_messageStore_same. }
  simpl onReceipt_loop.
  run_with (load_conv_Some _ _ _ Hcv).
  unfold targets; simpl. fold (targets conv tss).
  destruct (Messages conv !! ts) as [l|] eqn:Hts; simpl; [|by apply IH].
  destruct (Hall _ _ Hts) as [m Hl]. rewrite <-Hmsgs in Hl.
  run_with (update_message_Some _ _ _ _ Hl).
  erewrite bind_Some; last first.
  { apply update_message_Some. simpl. apply lookup_insert_eq. }
  erewrite (IH (alter (apply_receipt r) l msgs)); first done.
  - simpl. rewrite <-Hmsgs. by apply receipt_step_store.
  - done.
  - intros ts' l' Hl'. rewrite lookup_alter.
    destruct (Hall _ _ Hl') as [m' Hm']. case_decide; subst; rewrite Hm'; simpl; eauto.
Qed.

(** *** Receipts *)

(** [onReceipt] in closed form.  The resolution of the sender gives a world
    [w1] that differs from [w] by at most a new contact and a new, empty
    conversation; the loop then marks the targets in the message store. *)
Lemma onReceipt_run w (number : string) :
  wf w →
  ∃ c cv conv w1,
    contacts (siggo w1) !! number = Some c ∧
    conversations (siggo w1) !! c = Some cv ∧
    convStore w1 !! cv = Some conv ∧
    messageStore w1 = messageStore w ∧
    events w1 = events w ∧
    (∀ k x, convStore w !! k = Some x → convStore w1 !! k = Some x) ∧
    map_Forall (λ _ l, is_Some (messageStore w !! l)) (Messages conv) ∧
    (resolved_conv w number = Some conv ∨
     resolved_conv w number = None ∧ convStore w !! cv = None ∧
     conv = {| ConvContact := c; Messages := ∅; MessageOrder := [];
               HasNewMessage := false |}) ∧
    wf w1 ∧
    convStore w1 = <[cv := conv]> (convStore w) ∧
    ∀ msg, signal.Source (signal.Message_Envelope msg) = number →
      onReceipt msg w
      = Some (None,
              set_messageStore
                (λ _, marked (signal.Envelope_ReceiptMessage (signal.Message_Envelope msg))
                        (targets conv (signal.ReceiptMessage_Timestamps
                           (signal.Envelope_ReceiptMessage (signal.Message_Envelope msg))))
                        (messageStore w)) w1).
Proof.
  intros Hwf. pose proof Hwf as (Hcontacts & Hconvs & Hmsgs).
  destruct (contacts (siggo w) !! number) as [c|] eqn:Hc.
  - destruct (conversations (siggo w) !! c) as [cv|] eqn:Hcv.
    + destruct (Hconvs _ _ Hcv) as [_ [conv Hconv]].
      exists c, cv, conv, w. split_and!; try done.
      * by apply (Hmsgs cv).
      * left. unfold resolved_conv. rewrite Hc; simpl. by rewrite Hcv.
      * by rewrite insert_id.
      * intros msg <-. unfold onReceipt.
        rewrite bind_get_siggo, Hc, bind_ret, bind_get_siggo, Hcv, bind_ret.
        erewrite bind_Some; last first.
        { eapply onReceipt_loop_run; [done|done|]. by apply (Hmsgs cv). }
        done.
    + set (cv := fresh_loc (convStore w)).
      set (conv := {| ConvContact := c; Messages := ∅; MessageOrder := [];
                      HasNewMessage := false |}).
      exists c, cv, conv,
        (set_siggo (set_conversations (insert c cv)) (set_convStore (insert cv conv) w)).
      split_and!; simpl; try done.
      * apply lookup_insert_eq.
      * apply lookup_insert_eq.
      * intros k x Hk. rewrite lookup_insert_ne; [done|].
        intros <-. unfold cv in Hk. by rewrite fresh_loc_None in Hk.
      * right. split_and!; [|apply fresh_loc_None|done].
        unfold resolved_conv. rewrite Hc; simpl. by rewrite Hcv.
      * apply wf_newConversation; [done|]. by apply (Hcontacts number).
      * intros msg <-. unfold onReceipt.
        rewrite bind_get_siggo, Hc, bind_ret, bind_get_siggo, Hcv, bind_newConversation.
        fold cv conv.
        erewrite bind_Some; last first.
        { eapply onReceipt_loop_run;
            [done|simpl; apply lookup_insert_eq|apply map_Forall_empty]. }
        done.
  - set (c := fresh_loc (contactStore w)).
    set (cv := fresh_loc (convStore w)).
    set (conv := {| ConvContact := c; Messages := ∅; MessageOrder := [];
                    HasNewMessage := false |}).
    assert (conversations (siggo w) !! c = None) as Hcv.
    { destruct (conversations (siggo w) !! c) as [cv'|] eqn:Hcv'; [|done].
      destruct (Hconvs _ _ Hcv') as [[ct Hct] _].
      unfold c in Hct. by rewrite fresh_loc_None in Hct. }
    exists c, cv, conv,
      (set_siggo (set_conversations (insert c cv))
         (set_convStore (insert cv conv)
            (set_siggo (set_contacts (insert number c))
               (set_contactStore (insert c {| Number := number; Name := "" |}) w)))).
    split_and!; simpl; try done.
    * apply lookup_insert_eq.
    * apply lookup_insert_eq.
    * apply lookup_insert_eq.
    * intros k x Hk. rewrite lookup_insert_ne; [done|].
      intros <-. unfold cv in Hk. by rewrite fresh_loc_None in Hk.
    * right. split_and!; [|apply fresh_loc_None|done].
      unfold resolved_conv. by rewrite Hc.
    * apply (wf_newConversation
               (set_siggo (set_contacts (insert number c))
                  (set_contactStore (insert c {| Number := number; Name := "" |}) w))).
      -- by apply wf_newContact.
      -- simpl. rewrite lookup_insert_eq. eauto.
    * intros msg <-. unfold onReceipt.
      rewrite bind_get_siggo, Hc, bind_newContact, bind_get_siggo. fold c.
      simpl conversations. rewrite Hcv, bind_newConversation. simpl convStore.
      fold cv conv.
      erewrite bind_Some; last first.
      { eapply onReceipt_loop_run;
          [done|simpl; apply lookup_insert_eq|apply map_Forall_empty]. }
      done.
Qed.

Lemma targets_without conv (tss : list Z) ts :
  Messages conv !! ts = None →
  targets conv (filter (λ t, t ≠ ts) tss) = targets conv tss.
Proof.
  intros Hts. unfold targets. induction tss as [|t tss IH]; [done|].
  rewrite filter_cons. case_decide as Hne; simpl.
  - change (list_omap Z loc) with (@omap list _ Z loc). by rewrite IH.
  - subst t. by rewrite Hts.
Qed.

(** C3. On a well-formed world [onReceipt] returns [nil].  It creates and
    removes no Message; of the existing ones it leaves [Content], [From]
    and [Timestamp] alone, and it leaves untouched every Message that is
    not stored in the resolved conversation under a timestamp of the
    receipt.  Every conversation that existed before is unchanged
    ([Messages], [MessageOrder] and [HasNewMessage] included); the resolved
    conversation is the one the registries held, or a new empty one.  No
    event is emitted: the [NewInfo] hook is not called. *)
Theorem onReceipt_frame w (msg : signal.Message) :
  wf w →
  ∃ w' c cv conv,
    onReceipt msg w = Some (None, w') ∧
    contacts (siggo w') !! contactNumber msg = Some c ∧
    conversations (siggo w') !! c = Some cv ∧
    convStore w' !! cv = Some conv ∧
    (∀ k x, convStore w !! k = Some x → convStore w' !! k = Some x) ∧
    match resolved_conv w (contactNumber msg) with
    | Some conv0 => conv = conv0
    | None => conv = {| ConvContact := c; Messages := ∅; MessageOrder := [];
                        HasNewMessage := false |}
    end ∧
    dom (messageStore w') = dom (messageStore w) ∧
    (∀ l m, messageStore w !! l = Some m →
       ∃ m', messageStore w' !! l = Some m' ∧
             Content m' = Content m ∧ From m' = From m ∧
             Timestamp m' = Timestamp m ∧
             ((∀ ts, ts ∈ signal.ReceiptMessage_Timestamps (receiptMsg msg) →
                     Messages conv !! ts ≠ Some l) → m' = m)) ∧
    events w' = events w.
Proof.
  intros Hwf.
  destruct (onReceipt_run w (contactNumber msg) Hwf)
    as (c & cv & conv & w1 & Hc & Hcv & Hconv & Hstore & Hev & Hkeep & Hall
        & Hres & Hwf1 & Hcs & Hrun).
  eexists _, c, cv, conv. split; [by apply Hrun|]. simpl.
  split_and!; try done.
  - by destruct Hres as [->|(-> & _ & ->)].
  - apply set_eq. intros l. rewrite !elem_of_dom, marked_lookup.
    case_decide; [|done]. by rewrite fmap_is_Some.
  - intros l m Hl. rewrite marked_lookup, Hl.
    case_decide as Hin; simpl.
    + eexists. split_and!; try done.
      intros Hnot. apply elem_of_targets in Hin as (ts & Hts & Hlts).
      by destruct (Hnot ts Hts).
    + by exists m.
Qed.

(** C4. A timestamp of the receipt that is absent from the resolved
    conversation is skipped: on a well-formed world [onReceipt] returns
    [nil], the timestamp is still absent afterwards, the resolved
    conversation is the record it was (a new one is empty), and the
    resulting world is the one the same receipt without that timestamp
    gives. *)
Theorem onReceipt_skips_absent w (msg : signal.Message) (ts : Z) :
  wf w →
  ts ∈ signal.ReceiptMessage_Timestamps (receiptMsg msg) →
  (∀ conv0, resolved_conv w (contactNumber msg) = Some conv0 →
            Messages conv0 !! ts = None) →
  ∃ w' conv,
    onReceipt msg w = Some (None, w') ∧
    resolved_conv w' (contactNumber msg) = Some conv ∧
    Messages conv !! ts = None ∧
    match resolved_conv w (contactNumber msg) with
    | Some conv0 => conv = conv0
    | None => Messages conv = ∅ ∧ MessageOrder conv = []
    end ∧
    onReceipt (without_timestamp ts msg) w = Some (None, w').
Proof.
  intros Hwf Hts Habsent.
  destruct (onReceipt_run w (contactNumber msg) Hwf)
    as (c & cv & conv & w1 & Hc & Hcv & Hconv & Hstore & Hev & Hkeep & Hall
        & Hres & Hwf1 & Hcs & Hrun).
  assert (Messages conv !! ts = None) as Hnone.
  { destruct Hres as [Hres|(_ & _ & ->)]; [by apply Habsent|done]. }
  eexists _, conv. split; [by apply Hrun|].
  split_and!.
  - unfold resolved_conv; simpl. rewrite Hc; simpl. rewrite Hcv; simpl. done.
  - done.
  - by destruct Hres as [->|(-> & _ & ->)].
  - rewrite (Hrun (without_timestamp ts msg)) by done. simpl.
    by rewrite targets_without.
Qed.

(** C9. On a well-formed world [onReceipt] returns [nil], and every Message
    stored in the resolved conversation under a timestamp of the receipt
    ends with [IsDelivered] and [IsRead] equal to the flags of the receipt,
    whatever they were before, and with its other fields as they were. *)
Theorem onReceipt_sets_flags w (msg : signal.Message) :
  wf w →
  ∃ w' c cv conv,
    onReceipt msg w = Some (None, w') ∧
    contacts (siggo w') !! contactNumber msg = Some c ∧
    conversations (siggo w') !! c = Some cv ∧
    convStore w' !! cv = Some conv ∧
    ∀ ts l,
      ts ∈ signal.ReceiptMessage_Timestamps (receiptMsg msg) →
      Messages conv !! ts = Some l →
      ∃ m, messageStore w !! l = Some m ∧
           messageStore w' !! l
           = Some {| Content := Content m; From := From m;
                     Timestamp := Timestamp m;
                     IsDelivered := signal.ReceiptMessage_IsDelivery (receiptMsg msg);
                     IsRead := signal.ReceiptMessage_IsRead (receiptMsg msg) |}.
Proof.
  intros Hwf.
  destruct (onReceipt_run w (contactNumber msg) Hwf)
    as (c & cv & conv & w1 & Hc & Hcv & Hconv & Hstore & Hev & Hkeep & Hall
        & Hres & Hwf1 & Hcs & Hrun).
  eexists _, c, cv, conv. split; [by apply Hrun|]. simpl.
  split_and!; try done.
  intros ts l Hts Hl. destruct (Hall _ _ Hl) as [m Hm].
  exists m. split; [done|].
  rewrite marked_lookup, decide_True, Hm; [done|].
  apply elem_of_targets. eauto.
Qed.

(** *** Received messages *)

Lemma bind_alloc_message {B} (m : Message) (k : loc → M T B) w :
  bind (alloc_message m) k w
  = k (fresh_loc (messageStore w))
      (set_messageStore (insert (fresh_loc (messageStore w)) m) w).
Proof. done. Qed.

Lemma bind_alloc_contact {B} (ct : Contact) (k : loc → M T B) w :
  bind (alloc_contact ct) k w
  = k (fresh_loc (contactStore w))
      (set_contactStore (insert (fresh_loc (contactStore w)) ct) w).
Proof. done. Qed.

Lemma onReceived_tail (msg : signal.Message) (from : string) w c cv conv0 :
  conversations (siggo w) !! c = Some cv →
  convStore w !! cv = Some conv0 →
  (message <- alloc_message (received_message msg from) ;;
   s <- get_siggo ;;
   conv <- match conversations s !! c with
           | Some conv => ret conv
           | None => emit (EvLogNewConversation c) ;; newConversation c
           end ;;
   AddMessage conv message ;;
   emit (EvNewInfo conv) ;;
   ret None)%go w
  = Some (None : error,
          {| contactStore := contactStore w;
             messageStore := <[fresh_loc (messageStore w) := received_message msg from]>
                               (messageStore w);
             convStore := <[cv := AddMessage_result conv0
                                    (Timestamp (received_message msg from))
                                    (fresh_loc (messageStore w))]> (convStore w);
             siggo := siggo w;
             events := events w ++ [EvNewInfo cv] |}).
Proof.
  intros Hcv Hconv.
  rewrite bind_alloc_message, bind_get_siggo. simpl conversations.
  rewrite Hcv, bind_ret.
  erewrite bind_Some; last first.
  { apply AddMessage_run; simpl; [done|apply lookup_insert_eq]. }
  by rewrite bind_emit.
Qed.

Lemma onReceived_tail_new (msg : signal.Message) (from : string) w c :
  conversations (siggo w) !! c = None →
  (message <- alloc_message (received_message msg from) ;;
   s <- get_siggo ;;
   conv <- match conversations s !! c with
           | Some conv => ret conv
           | None => emit (EvLogNewConversation c) ;; newConversation c
           end ;;
   AddMessage conv message ;;
   emit (EvNewInfo conv) ;;
   ret None)%go w
  = Some (None : error,
          {| contactStore := contactStore w;
             messageStore := <[fresh_loc (messageStore w) := received_message msg from]>
                               (messageStore w);
             convStore :=
               <[fresh_loc (convStore w) :=
                   AddMessage_result
                     {| ConvContact := c; Messages := ∅; MessageOrder := [];
                        HasNewMessage := false |}
                     (Timestamp (received_message msg from))
                     (fresh_loc (messageStore w))]> (convStore w);
             siggo := set_conversations (insert c (fresh_loc (convStore w))) (siggo w);
             events := events w ++ [EvLogNewConversation c;
                                    EvNewInfo (fresh_loc (convStore w))] |}).
Proof.
  intros Hcv.
  rewrite bind_alloc_message, bind_get_siggo. simpl conversations.
  rewrite Hcv, bind_assoc, bind_emit, bind_newConversation.
  erewrite bind_Some; last first.
  { apply AddMessage_run; simpl; apply lookup_insert_eq. }
  rewrite bind_emit. unfold ret, set_convStore; simpl.
  by rewrite insert_insert_eq, <-app_assoc.
Qed.

(** [onReceived] in closed form, on a well-formed world. *)
Lemma onReceived_run w (msg : signal.Message) :
  wf w →
  ∃ c cv ct conv0 logs w',
    onReceived msg w = Some (None, w') ∧
    match contacts (siggo w) !! contactNumber msg with
    | Some c0 =>
        c = c0 ∧ contactStore w' = contactStore w ∧
        contacts (siggo w') = contacts (siggo w)
    | None =>
        contactStore w !! c = None ∧
        ct = {| Number := contactNumber msg; Name := "" |} ∧
        contactStore w' = <[c := ct]> (contactStore w) ∧
        contacts (siggo w') = <[contactNumber msg := c]> (contacts (siggo w)) ∧
        conversations (siggo w) !! c = None
    end ∧
    contactStore w' !! c = Some ct ∧
    match conversations (siggo w) !! c with
    | Some cv0 =>
        cv = cv0 ∧ convStore w !! cv = Some conv0 ∧
        conversations (siggo w') = conversations (siggo w)
    | None =>
        convStore w !! cv = None ∧
        conv0 = {| ConvContact := c; Messages := ∅; MessageOrder := [];
                   HasNewMessage := false |} ∧
        conversations (siggo w') = <[c := cv]> (conversations (siggo w))
    end ∧
    messageStore w' = <[fresh_loc (messageStore w) :=
                          received_message msg
                            (if decide (Name ct = "") then contactNumber msg
                             else Name ct)]> (messageStore w) ∧
    convStore w' = <[cv := AddMessage_result conv0
                             (signal.DataMessage_Timestamp
                                (signal.Envelope_DataMessage (signal.Message_Envelope msg)))
                             (fresh_loc (messageStore w))]> (convStore w) ∧
    config (siggo w') = config (siggo w) ∧
    signal (siggo w') = signal (siggo w) ∧
    events w' = events w ++ logs ++ [EvNewInfo cv] ∧
    (∀ x, EvNewInfo x ∉ logs).
Proof.
  intros (Hcontacts & Hconvs & Hmsgs). unfold contactNumber.
  destruct (contacts (siggo w) !! signal.Source (signal.Message_Envelope msg))
    as [c|] eqn:Hc.
  - destruct (Hcontacts _ _ Hc) as [ct Hct].
    assert (∀ k : (loc * string) → M T error,
      bind (ct0 <- load_contact c ;;
            if decide (Name ct0 = "")
            then ret (c, signal.Source (signal.Message_Envelope msg))
            else ret (c, Name ct0))%go k w
      = k (c, if decide (Name ct = "")
              then signal.Source (signal.Message_Envelope msg) else Name ct) w) as Hhead.
    { intros k. rewrite bind_assoc.
      run_with (load_contact_Some _ _ _ Hct).
      by destruct (decide (Name ct = "")). }
    destruct (conversations (siggo w) !! c) as [cv|] eqn:Hcv.
    + destruct (Hconvs _ _ Hcv) as [_ [conv0 Hconv0]].
      eexists c, cv, ct, conv0, [], _. split.
      { unfold onReceived. rewrite bind_get_siggo, Hc, Hhead.
        by apply onReceived_tail. }
      simpl. rewrite Hcv. split_and!; try done. intros x. apply not_elem_of_nil.
    + eexists c, _, ct, _, [EvLogNewConversation c], _. split.
      { unfold onReceived. rewrite bind_get_siggo, Hc, Hhead.
        by apply onReceived_tail_new. }
      simpl. rewrite Hcv. split_and!; try done.
      * apply fresh_loc_None.
      * intros x Hx%list_elem_of_singleton. done.
  - set (c := fresh_loc (contactStore w)).
    set (ct := {| Number := signal.Source (signal.Message_Envelope msg); Name := "" |}).
    assert (conversations (siggo w) !! c = None) as Hcv.
    { destruct (conversations (siggo w) !! c) as [cv'|] eqn:Hcv'; [|done].
      destruct (Hconvs _ _ Hcv') as [[ct' Hct'] _].
      unfold c in Hct'. by rewrite fresh_loc_None in Hct'. }
    eexists c, _, ct, _, [EvLogNewContact c; EvLogNewConversation c], _. split.
    { unfold onReceived. rewrite bind_get_siggo, Hc.
      rewrite bind_assoc, bind_alloc_contact, bind_assoc, bind_emit, bind_assoc.
      erewrite bind_Some; last first.
      { apply load_contact_Some. simpl. apply lookup_insert_eq. }
      rewrite bind_assoc, bind_modify, bind_ret.
      by apply onReceived_tail_new. }
    simpl. rewrite Hcv. split_and!; try done.
    * apply fresh_loc_None.
    * apply lookup_insert_eq.
    * apply fresh_loc_None.
    * by rewrite <-app_assoc.
    * intros x. rewrite !elem_of_cons, elem_of_nil. by intros [?|[?|[]]].
Qed.

(** C5. A received message whose sender is not a key of the contact
    registry makes [onReceived] return [nil] with one new Contact, of that
    number and without a name, registered under the number, and one new
    Conversation of that Contact, registered under it; the registries and
    the stores change in nothing else. *)
Theorem onReceived_unknown_sender w (msg : signal.Message) :
  wf w →
  contacts (siggo w) !! contactNumber msg = None →
  ∃ w' c cv conv,
    onReceived msg w = Some (None, w') ∧
    contactStore w !! c = None ∧
    contactStore w' = <[c := {| Number := contactNumber msg; Name := "" |}]>
                        (contactStore w) ∧
    contacts (siggo w') = <[contactNumber msg := c]> (contacts (siggo w)) ∧
    conversations (siggo w) !! c = None ∧
    convStore w !! cv = None ∧
    convStore w' = <[cv := conv]> (convStore w) ∧
    ConvContact conv = c ∧
    conversations (siggo w') = <[c := cv]> (conversations (siggo w)).
Proof.
  intros Hwf Hnew.
  destruct (onReceived_run w msg Hwf)
    as (c & cv & ct & conv0 & logs & w' & Hrun & Hcontact & Hct & Hconv & Hmsg
        & Hstore & _).
  rewrite Hnew in Hcontact. destruct Hcontact as (Hc & -> & Hcs & Hreg & Hcv).
  rewrite Hcv in Hconv. destruct Hconv as (Hfresh & -> & Hconvs).
  eexists w', c, cv, _. split_and!; try done.
Qed.

(** C6. On a well-formed world [onReceived] returns [nil].  It allocates
    one Message, with the text and the timestamp of the payload, delivered
    and unread, and with [From] the name of the resolved Contact, or the
    sender's number if that name is empty.  The resolved conversation (the
    one the registries held, or a new empty one) receives that Message as
    [AddMessage] does, and the last event is the call of [NewInfo] on that
    conversation, the only such call. *)
Theorem onReceived_spec w (msg : signal.Message) :
  wf w →
  ∃ w' c ct cv conv0 conv' message m logs,
    onReceived msg w = Some (None, w') ∧
    contacts (siggo w') !! contactNumber msg = Some c ∧
    contactStore w' !! c = Some ct ∧
    conversations (siggo w') !! c = Some cv ∧
    messageStore w !! message = None ∧
    messageStore w' = <[message := m]> (messageStore w) ∧
    Content m = signal.DataMessage_Message
                  (signal.Envelope_DataMessage (signal.Message_Envelope msg)) ∧
    Timestamp m = signal.DataMessage_Timestamp
                    (signal.Envelope_DataMessage (signal.Message_Envelope msg)) ∧
    IsDelivered m = true ∧
    IsRead m = false ∧
    From m = (if decide (Name ct = "") then contactNumber msg else Name ct) ∧
    match resolved_conv w (contactNumber msg) with
    | Some conv => conv0 = conv
    | None => conv0 = {| ConvContact := c; Messages := ∅; MessageOrder := [];
                         HasNewMessage := false |}
    end ∧
    convStore w' !! cv = Some conv' ∧
    Messages conv' = <[Timestamp m := message]> (Messages conv0) ∧
    match Messages conv0 !! Timestamp m with
    | None =>
        MessageOrder conv' = MessageOrder conv0 ++ [Timestamp m] ∧
        HasNewMessage conv' = true
    | Some _ =>
        MessageOrder conv' = MessageOrder conv0 ∧
        HasNewMessage conv' = HasNewMessage conv0
    end ∧
    events w' = events w ++ logs ++ [EvNewInfo cv] ∧
    (∀ x, EvNewInfo x ∉ logs).
Proof.
  intros Hwf.
  destruct (onReceived_run w msg Hwf)
    as (c & cv & ct & conv0 & logs & w' & Hrun & Hcontact & Hct & Hconv & Hmsg
        & Hstore & _ & _ & Hev & Hlogs).
  eexists w', c, ct, cv, conv0, _, _, _, logs.
  split; [done|]. rewrite Hmsg, Hstore. simpl.
  assert (contacts (siggo w') !! contactNumber msg = Some c) as Hc'.
  { destruct (contacts (siggo w) !! contactNumber msg) as [c0|] eqn:Hc.
    - destruct Hcontact as (-> & _ & ->). done.
    - destruct Hcontact as (_ & _ & _ & -> & _). apply lookup_insert_eq. }
  assert (conversations (siggo w') !! c = Some cv) as Hcv'.
  { destruct (conversations (siggo w) !! c) as [cv0|] eqn:Hcv.
    - destruct Hconv as (-> & _ & ->). done.
    - destruct Hconv as (_ & _ & ->). apply lookup_insert_eq. }
  split_and!; try done.
  - apply fresh_loc_None.
  - unfold resolved_conv.
    destruct (contacts (siggo w) !! contactNumber msg) as [c0|] eqn:Hc; simpl.
    + destruct Hcontact as (-> & _ & _).
      destruct (conversations (siggo w) !! c0) as [cv0|] eqn:Hcv; simpl.
      * destruct Hconv as (-> & -> & _). done.
      * by destruct Hconv as (_ & -> & _).
    + destruct Hcontact as (_ & _ & _ & _ & Hcv). rewrite Hcv in Hconv.
      by destruct Hconv as (_ & -> & _).
  - apply lookup_insert_eq.
  - unfold AddMessage_result. by destruct (Messages conv0 !! _).
  - unfold AddMessage_result. by destruct (Messages conv0 !! _).
Qed.

(** *** Send *)

(** [Send] in closed form: it panics on a contact pointer that holds
    nothing, and otherwise returns what the transport returns. *)
Lemma Send_run w (text : string) (contact : loc) :
  wf w →
  match contactStore w !! contact with
  | None => Send text contact w = None
  | Some ct =>
      ∃ w1,
        (conversations (siggo w) !! contact ≠ None ∧ w1 = w ∨
         conversations (siggo w) !! contact = None ∧
         w1 = set_siggo (set_conversations (insert contact (fresh_loc (convStore w))))
                (set_convStore
                   (insert (fresh_loc (convStore w))
                      {| ConvContact := contact; Messages := ∅; MessageOrder := [];
                         HasNewMessage := false |}) w)) ∧
        Send text contact w
        = Some ((signal_Send (signal (siggo w)) (Number ct) text).2,
                set_siggo (set_signal (signal_Send (signal (siggo w)) (Number ct) text).1)
                  (set_messageStore
                     (insert (fresh_loc (messageStore w))
                        {| Content := text; From := UserName (config (siggo w));
                           Timestamp := 0; IsDelivered := false; IsRead := false |})
                     w1))
  end.
Proof.
  intros Hwf. unfold Send. rewrite bind_get_siggo.
  destruct (contactStore w !! contact) as [ct|] eqn:Hct.
  - destruct (conversations (siggo w) !! contact) as [cv|] eqn:Hcv.
    + exists w. split; [by left|].
      rewrite bind_ret, bind_alloc_message. unfold onSend. rewrite bind_ret.
      erewrite bind_Some; last by apply load_contact_Some.
      done.
    + eexists. split; [by right|].
      rewrite bind_newConversation, bind_alloc_message. unfold onSend. rewrite bind_ret.
      erewrite bind_Some; last by apply load_contact_Some.
      done.
  - destruct (conversations (siggo w) !! contact) as [cv|] eqn:Hcv.
    + rewrite bind_ret, bind_alloc_message. unfold onSend. rewrite bind_ret.
      unfold bind, load_contact. simpl. by rewrite Hct.
    + rewrite bind_newConversation, bind_alloc_message. unfold onSend. rewrite bind_ret.
      unfold bind, load_contact. simpl. by rewrite Hct.
Qed.

(** C8, as the code has it.  When the transport's [Send] fails, [Send]
    returns that error.  The conversation of the contact is registered
    afterwards: the one that was, unchanged, or a new empty one.  The
    pending Message is allocated, but [onSend] records it nowhere: every
    conversation that existed keeps its record, and no conversation holds
    the new Message. *)
Theorem Send_transport_error w (text : string) (contact : loc) (ct : Contact)
    (t' : T) (e : string) :
  wf w →
  contactStore w !! contact = Some ct →
  signal_Send (signal (siggo w)) (Number ct) text = (t', Some e) →
  ∃ w' cv conv,
    Send text contact w = Some (Some e, w') ∧
    conversations (siggo w') !! contact = Some cv ∧
    convStore w' !! cv = Some conv ∧
    match conversations (siggo w) !! contact with
    | Some cv0 => cv = cv0 ∧ convStore w' = convStore w
    | None =>
        convStore w !! cv = None ∧
        conv = {| ConvContact := contact; Messages := ∅; MessageOrder := [];
                  HasNewMessage := false |} ∧
        convStore w' = <[cv := conv]> (convStore w)
    end ∧
    messageStore w' = <[fresh_loc (messageStore w) :=
                          {| Content := text; From := UserName (config (siggo w));
                             Timestamp := 0; IsDelivered := false;
                             IsRead := false |}]> (messageStore w) ∧
    (∀ k x ts, convStore w' !! k = Some x →
               Messages x !! ts ≠ Some (fresh_loc (messageStore w))).
Proof.
  intros Hwf Hct Hsend. pose proof Hwf as (Hcontacts & Hconvs & Hmsgs).
  pose proof (Send_run w text contact Hwf) as Hrun.
  rewrite Hct, Hsend in Hrun. destruct Hrun as (w1 & Hw1 & Hrun).
  assert (∀ k x ts, convStore w !! k = Some x →
                    Messages x !! ts ≠ Some (fresh_loc (messageStore w))) as Hunref.
  { intros k x ts Hk Hts. destruct (Hmsgs _ _ Hk _ _ Hts) as [m Hm].
    by rewrite fresh_loc_None in Hm. }
  destruct Hw1 as [[Hcv ->]|[Hcv ->]].
  - destruct (conversations (siggo w) !! contact) as [cv|] eqn:Hcv'; [|done].
    destruct (Hconvs _ _ Hcv') as [_ [conv Hconv]].
    eexists _, cv, conv. split; [exact Hrun|]. by split_and!.
  - rewrite Hcv. eexists _, _, _. split; [exact Hrun|]. simpl.
    split_and!; try done.
    + apply lookup_insert_eq.
    + apply lookup_insert_eq.
    + apply fresh_loc_None.
    + intros k x ts. rewrite lookup_insert. case_decide.
      * intros [= <-]. simpl. by rewrite lookup_empty.
      * apply Hunref.
Qed.

(** *** The invariants hold in every reachable world *)

Lemma NewSiggo_consistent (sig : T) (cfg : Config) :
  ∃ w0, NewSiggo sig cfg (boot sig cfg) = Some (tt, w0) ∧ wf w0 ∧ all_ordered w0.
Proof.
  eexists. unfold NewSiggo, GetContacts, GetConversations.
  unfold bind at 1. unfold alloc_contact at 1. unfold bind at 1. unfold ret at 1.
  rewrite insert_empty, map_to_list_singleton. simpl.
  split; [reflexivity|]. unfold wf, all_ordered; simpl. rewrite !insert_empty.
  split_and!.
  - apply map_Forall_singleton. rewrite lookup_singleton_eq. eauto.
  - apply map_Forall_singleton. rewrite !lookup_singleton_eq. eauto.
  - apply map_Forall_singleton, map_Forall_empty.
  - apply map_Forall_singleton, ordered_empty.
Qed.

Lemma onReceipt_consistent w (msg : signal.Message) r w' :
  wf w → all_ordered w →
  onReceipt msg w = Some (r, w') →
  wf w' ∧ all_ordered w'.
Proof.
  intros Hwf Hord Hstep.
  destruct (onReceipt_run w (contactNumber msg) Hwf)
    as (c & cv & conv & w1 & Hc & Hcv & Hconv & Hstore & Hev & Hkeep & Hall
        & Hres & Hwf1 & Hcs & Hrun).
  rewrite Hrun in Hstep by done. injection Hstep as _ <-. split.
  - apply wf_messageStore; [done|]. intros l. rewrite Hstore, marked_lookup.
    case_decide; [|done]. by rewrite fmap_is_Some.
  - unfold all_ordered; simpl. rewrite Hcs. apply map_Forall_insert_2; [|done].
    destruct Hres as [Hres|(_ & _ & ->)].
    + unfold resolved_conv in Hres.
      destruct (contacts (siggo w) !! _) as [c0|]; simpl in Hres; [|done].
      destruct (conversations (siggo w) !! c0) as [cv0|]; simpl in Hres; [|done].
      by apply (Hord cv0).
    + apply ordered_empty.
Qed.

Lemma onReceived_consistent w (msg : signal.Message) r w' :
  wf w → all_ordered w →
  onReceived msg w = Some (r, w') →
  wf w' ∧ all_ordered w'.
Proof.
  intros Hwf Hord Hstep. pose proof Hwf as (Hcontacts & Hconvs & Hmsgs).
  destruct (onReceived_run w msg Hwf)
    as (c & cv & ct & conv0 & logs & w1 & Hrun & Hcontact & Hct & Hconv & Hmsg
        & Hstore & _).
  rewrite Hrun in Hstep. injection Hstep as _ <-.
  assert (∀ k, is_Some (contactStore w !! k) → is_Some (contactStore w1 !! k)) as Hsup.
  { intros k Hk. destruct (contacts (siggo w) !! contactNumber msg).
    - destruct Hcontact as (_ & -> & _). done.
    - destruct Hcontact as (_ & _ & -> & _). by apply is_Some_insert. }
  assert (map_Forall (λ _ l, is_Some (messageStore w !! l)) (Messages conv0)
          ∧ ordered conv0) as [Hall0 Hord0].
  { destruct (conversations (siggo w) !! c).
    - destruct Hconv as (_ & Hconv0 & _). split; [by apply (Hmsgs cv)|by apply (Hord cv)].
    - destruct Hconv as (_ & -> & _). split; [apply map_Forall_empty|apply ordered_empty]. }
  split; [unfold wf; split_and!|].
  - intros n c' Hn. destruct (contacts (siggo w) !! contactNumber msg).
    + destruct Hcontact as (_ & Hcs & Hreg). rewrite Hreg in Hn. rewrite Hcs.
      by apply (Hcontacts n).
    + destruct Hcontact as (_ & _ & Hcs & Hreg & _). rewrite Hreg in Hn. rewrite Hcs.
      rewrite lookup_insert in Hn. case_decide.
      * injection Hn as <-. rewrite lookup_insert_eq. eauto.
      * apply is_Some_insert. by apply (Hcontacts n).
  - intros c' cv' Hc'. rewrite Hstore.
    destruct (conversations (siggo w) !! c) as [cv0|] eqn:Hcv.
    + destruct Hconv as (_ & _ & Hreg). rewrite Hreg in Hc'.
      destruct (Hconvs _ _ Hc'). split; [by apply Hsup|by apply is_Some_insert].
    + destruct Hconv as (_ & _ & Hreg). rewrite Hreg in Hc'.
      rewrite lookup_insert in Hc'. case_decide.
      * injection Hc' as <-. subst c'. split; [eauto|]. rewrite lookup_insert_eq. eauto.
      * destruct (Hconvs _ _ Hc'). split; [by apply Hsup|by apply is_Some_insert].
  - rewrite Hstore, Hmsg. apply map_Forall_insert_2.
    + assert (Messages (AddMessage_result conv0
                (signal.DataMessage_Timestamp
                   (signal.Envelope_DataMessage (signal.Message_Envelope msg)))
                (fresh_loc (messageStore w)))
              = <[signal.DataMessage_Timestamp
                    (signal.Envelope_DataMessage (signal.Message_Envelope msg))
                  := fresh_loc (messageStore w)]> (Messages conv0)) as ->.
      { unfold AddMessage_result. by destruct (Messages conv0 !! _). }
      apply map_Forall_insert_2; [rewrite lookup_insert_eq; eauto|].
      intros ts l Hl. apply is_Some_insert. by apply (Hall0 ts).
    + intros cv' conv' Hcv' ts l Hl. apply is_Some_insert. by apply (Hmsgs cv' conv' Hcv' ts).
  - unfold all_ordered. rewrite Hstore. apply map_Forall_insert_2; [|done].
    by apply AddMessage_result_ordered.
Qed.

Lemma Send_consistent w (text : string) (contact : loc) r w' :
  wf w → all_ordered w →
  Send text contact w = Some (r, w') →
  wf w' ∧ all_ordered w'.
Proof.
  intros Hwf Hord Hstep. pose proof (Send_run w text contact Hwf) as Hrun.
  destruct (contactStore w !! contact) as [ct|] eqn:Hct; [|by rewrite Hrun in Hstep].
  destruct Hrun as (w1 & Hw1 & Hrun). rewrite Hrun in Hstep. injection Hstep as _ <-.
  assert (wf w1 ∧ all_ordered w1) as [Hwf1 Hord1].
  { destruct Hw1 as [[_ ->]|[_ ->]]; [done|]. split.
    - apply wf_newConversation; [done|]. rewrite Hct. eauto.
    - unfold all_ordered; simpl. apply map_Forall_insert_2; [apply ordered_empty|done]. }
  split; [|done].
  apply (wf_ext (set_messageStore (λ _, <[fresh_loc (messageStore w) :=
           {| Content := text; From := UserName (config (siggo w)); Timestamp := 0;
              IsDelivered := false; IsRead := false |}]> (messageStore w1)) w1));
    try done.
  apply wf_messageStore; [done|]. intros l. apply is_Some_insert.
Qed.

Lemma AddMessage_consistent w c (message : loc) w' :
  wf w → all_ordered w →
  AddMessage c message w = Some (tt, w') →
  wf w' ∧ all_ordered w'.
Proof.
  intros Hwf Hord Hstep.
  destruct (convStore w !! c) as [conv|] eqn:Hc; last first.
  { unfold AddMessage, bind, load_conv in Hstep. by rewrite Hc in Hstep. }
  destruct (messageStore w !! message) as [m|] eqn:Hm; last first.
  { unfold AddMessage in Hstep.
    rewrite (bind_Some _ _ _ _ _ (load_conv_Some _ _ _ Hc)) in Hstep.
    unfold bind, load_message in Hstep. by rewrite Hm in Hstep. }
  rewrite (AddMessage_run _ _ _ _ _ Hc Hm) in Hstep. injection Hstep as <-. split.
  - apply wf_AddMessage_result; [done..|]. rewrite Hm. eauto.
  - unfold all_ordered; simpl. apply map_Forall_insert_2; [|done].
    apply AddMessage_result_ordered. by apply (Hord c).
Qed.

Lemma step_consistent w w' :
  wf w → all_ordered w → step w w' → wf w' ∧ all_ordered w'.
Proof.
  intros Hwf Hord Hstep.
  destruct Hstep as [msg r w w' Hrun|msg r w w' Hrun|text contact r w w' Hrun
                    |c message w w' Hrun].
  - exact (onReceived_consistent _ _ _ _ Hwf Hord Hrun).
  - exact (onReceipt_consistent _ _ _ _ Hwf Hord Hrun).
  - exact (Send_consistent _ _ _ _ _ Hwf Hord Hrun).
  - exact (AddMessage_consistent _ _ _ _ Hwf Hord Hrun).
Qed.

Lemma reachable_consistent (sig : T) (cfg : Config) w :
  reachable sig cfg w → wf w ∧ all_ordered w.
Proof.
  intros (w0 & Hnew & Hsteps).
  destruct (NewSiggo_consistent sig cfg) as (w0' & Hnew' & Hwf0 & Hord0).
  rewrite Hnew in Hnew'. injection Hnew' as <-. clear Hnew.
  induction Hsteps as [w|w w1 w2 Hstep _ IH]; [by split|].
  destruct (step_consistent _ _ Hwf0 Hord0 Hstep) as [Hwf1 Hord1]. by apply IH.
Qed.

(** Rendering never panics on a conversation of a reachable world. *)
Lemma Conversation_String_total (sig : T) (cfg : Config) w cv conv :
  reachable sig cfg w →
  convStore w !! cv = Some conv →
  ∃ out, Conversation_String cv w = Some (out, w)
         ∧ rendered (messageStore w) conv = Some out.
Proof.
  intros [(_ & _ & Hmsgs) Hord]%reachable_consistent Hcv.
  destruct (Hord _ _ Hcv) as [_ Hkeys].
  assert (is_Some (mapM (stored_line (messageStore w) conv) (MessageOrder conv)))
    as [lines Hlines].
  { apply mapM_is_Some, Forall_forall. intros k Hk. simpl.
    apply Hkeys in Hk as [l Hl]. destruct (Hmsgs _ _ Hcv _ _ Hl) as [m Hm].
    unfold stored_line. rewrite Hl; simpl. rewrite Hm; simpl. eauto. }
  exists (String.concat "" lines).
  unfold Conversation_String, bind, load_conv, rendered. rewrite Hcv; simpl.
  rewrite Conversation_String_loop_acc, Hlines. done.
Qed.

End proofs.

(** ** Further properties of the code *)

Section further.
Context {T : Type} `{!SignalAPI T}.
Implicit Types (w : World T) (c cv l : loc) (conv : Conversation) (m : Message).

Tactic Notation "run_with" uconstr(E) := rewrite (bind_Some _ _ _ _ _ E).

(** *** The invariants, for the user of the package *)

(** X1. In every world a session can reach, by any sequence of returning
    calls of [onReceived], [onReceipt], [Send] and [AddMessage] after
    [NewSiggo], the registries and the conversations hold no [nil] or
    dangling pointer, and the [MessageOrder] of every conversation lists
    the keys of its [Messages], each exactly once. *)
Theorem reachable_invariants (sig : T) (cfg : Config) w :
  reachable sig cfg w → wf w ∧ all_ordered w.
Proof. apply reachable_consistent. Qed.

(** X2. In every reachable world, rendering any stored conversation returns
    (it never dereferences [nil]), leaves the world as it is, and gives the
    concatenation of the stored lines. *)
Theorem reachable_rendering (sig : T) (cfg : Config) w cv conv :
  reachable sig cfg w →
  convStore w !! cv = Some conv →
  ∃ out, Conversation_String cv w = Some (out, w)
         ∧ rendered (messageStore w) conv = Some out.
Proof. apply Conversation_String_total. Qed.

(** *** Send *)

(** [Send] as a function of the world, for a contact that is not [nil]. *)
Lemma Send_closed w (text : string) (contact : loc) (ct : Contact) :
  wf w →
  contactStore w !! contact = Some ct →
  Send text contact w
  = Some ((signal_Send (signal (siggo w)) (Number ct) text).2,
          set_siggo (set_signal (signal_Send (signal (siggo w)) (Number ct) text).1)
            (set_messageStore
               (insert (fresh_loc (messageStore w))
                  {| Content := text; From := UserName (config (siggo w));
                     Timestamp := 0; IsDelivered := false; IsRead := false |})
               (resolve_conversation contact w).2)).
Proof.
  intros Hwf Hct. pose proof (Send_run w text contact Hwf) as Hrun.
  rewrite Hct in Hrun. destruct Hrun as (w1 & Hw1 & ->).
  unfold resolve_conversation.
  destruct Hw1 as [[Hcv ->]|[Hcv ->]].
  - by destruct (conversations (siggo w) !! contact).
  - by rewrite Hcv.
Qed.

(** [Send] on a contact pointer that holds nothing. *)
Lemma Send_None w (text : string) (contact : loc) :
  contactStore w !! contact = None →
  Send text contact w = None.
Proof.
  intros Hct. unfold Send. rewrite bind_get_siggo.
  destruct (conversations (siggo w) !! contact) as [cv|].
  - rewrite bind_ret, bind_alloc_message. unfold onSend. rewrite bind_ret.
    unfold bind, load_contact. simpl. by rewrite Hct.
  - rewrite bind_newConversation, bind_alloc_message. unfold onSend. rewrite bind_ret.
    unfold bind, load_contact. simpl. by rewrite Hct.
Qed.

(** X3. [Send] to a contact that is not [nil] returns what the transport's
    [Send] returns for the contact's number and the raw text ([nil] when the
    transport succeeds) and keeps the transport's new state.  On the way it
    resolves or creates the conversation of the contact and allocates the
    pending Message; contacts, the contact registry, the configuration and
    the trace are as before. *)
Theorem Send_result w (text : string) (contact : loc) (ct : Contact) :
  wf w →
  contactStore w !! contact = Some ct →
  Send text contact w
  = Some ((signal_Send (signal (siggo w)) (Number ct) text).2,
          set_siggo (set_signal (signal_Send (signal (siggo w)) (Number ct) text).1)
            (set_messageStore
               (insert (fresh_loc (messageStore w))
                  {| Content := text; From := UserName (config (siggo w));
                     Timestamp := 0; IsDelivered := false; IsRead := false |})
               (resolve_conversation contact w).2)).
Proof. apply Send_closed. Qed.

(** X4. [Send] to a contact pointer that holds nothing ([nil]) panics: the
    number of the contact is read before the transport is called. *)
Theorem Send_nil_contact w (text : string) (contact : loc) :
  contactStore w !! contact = None →
  Send text contact w = None.
Proof. apply Send_None. Qed.

(** *** AddMessage, again *)

Lemma AddMessage_None w c (message : loc) :
  convStore w !! c = None ∨ messageStore w !! message = None →
  AddMessage c message w = None.
Proof.
  intros Hnone. unfold AddMessage.
  destruct (convStore w !! c) as [conv|] eqn:Hc; last first.
  { unfold bind, load_conv. by rewrite Hc. }
  run_with (load_conv_Some _ _ _ Hc).
  destruct Hnone as [?|Hm]; [done|].
  unfold bind, load_message. by rewrite Hm.
Qed.

Lemma AddMessage_result_twice conv (ts : Z) (message : loc) :
  AddMessage_result (AddMessage_result conv ts message) ts message
  = AddMessage_result conv ts message.
Proof.
  unfold AddMessage_result at 1.
  assert (Messages (AddMessage_result conv ts message) !! ts = Some message) as ->.
  { unfold AddMessage_result. destruct (Messages conv !! ts); simpl; apply lookup_insert_eq. }
  unfold AddMessage_result, set_Messages.
  destruct (Messages conv !! ts); simpl; by rewrite insert_insert_eq.
Qed.

(** X6. Adding the same Message to the same conversation twice in a row is
    adding it once: the second call changes nothing (and the pair panics
    exactly when one call does). *)
Theorem AddMessage_twice w c (message : loc) :
  bind (AddMessage c message) (λ _, AddMessage c message) w = AddMessage c message w.
Proof.
  destruct (convStore w !! c) as [conv|] eqn:Hc; last first.
  { unfold bind at 1. by rewrite AddMessage_None by by left. }
  destruct (messageStore w !! message) as [m|] eqn:Hm; last first.
  { unfold bind at 1. by rewrite AddMessage_None by by right. }
  run_with (AddMessage_run _ _ _ _ _ Hc Hm).
  rewrite (AddMessage_run _ c message (AddMessage_result conv (Timestamp m) message) m).
  - by rewrite AddMessage_result_twice, set_convStore_twice, (AddMessage_run _ _ _ _ _ Hc Hm).
  - simpl. apply lookup_insert_eq.
  - done.
Qed.

(** *** Rendering after AddMessage *)

Lemma Conversation_String_loop_ext (msgs : gmap loc Message) (c1 c2 : Conversation)
    (keys : list Z) (out : string) :
  (∀ k, k ∈ keys → Messages c1 !! k = Messages c2 !! k) →
  Conversation_String_loop msgs c1 keys out = Conversation_String_loop msgs c2 keys out.
Proof.
  revert out. induction keys as [|k keys IH]; intros out Heq; [done|].
  simpl. rewrite (Heq k) by left.
  destruct (Messages c2 !! k) as [l|]; [|done].
  destruct (msgs !! l) as [m|]; [|done].
  apply IH. intros k' Hk'. apply Heq. by right.
Qed.

Lemma Conversation_String_loop_app (msgs : gmap loc Message) (c : Conversation)
    (keys1 keys2 : list Z) (out : string) :
  Conversation_String_loop msgs c (keys1 ++ keys2) out
  = Conversation_String_loop msgs c keys1 out ≫= Conversation_String_loop msgs c keys2.
Proof.
  revert out. induction keys1 as [|k keys1 IH]; intros out; [done|].
  simpl. destruct (Messages c !! k) as [l|]; [|done].
  destruct (msgs !! l) as [m|]; [|done].
  apply IH.
Qed.

(** X7. When the conversation at [c] is ordered and the timestamp of the
    Message is not yet a key, [AddMessage] appends exactly the line of that
    Message to the rendering of the conversation. *)
Theorem AddMessage_appends_line w c (message : loc) conv m (out : string) :
  convStore w !! c = Some conv →
  ordered conv →
  messageStore w !! message = Some m →
  Messages conv !! Timestamp m = None →
  Conversation_String c w = Some (out, w) →
  ∃ w', AddMessage c message w = Some (tt, w') ∧
        Conversation_String c w' = Some (out +:+ Message_String m, w').
Proof.
  intros Hc [_ Hkeys] Hm Hnew Hout.
  eexists. split; [by apply AddMessage_run|].
  unfold Conversation_String in *. unfold bind, load_conv in *. simpl.
  rewrite Hc in Hout. rewrite lookup_insert_eq. simpl in *.
  unfold AddMessage_result. rewrite Hnew. simpl.
  rewrite Conversation_String_loop_app.
  rewrite (Conversation_String_loop_ext _ _ conv); last first.
  { intros k Hk. simpl. apply lookup_insert_ne. intros <-.
    apply Hkeys in Hk. rewrite Hnew in Hk. by destruct Hk. }
  destruct (Conversation_String_loop (messageStore w) conv (MessageOrder conv) "")
    as [out0|]; [|done].
  injection Hout as <-. simpl. by rewrite lookup_insert_eq, Hm.
Qed.

(** *** Receipts, again *)

Lemma bind_resolve_contact {B} (number : string) (k : loc → M T B) w :
  bind (match contacts (siggo w) !! number with
        | Some c => ret c
        | None => newContact number
        end) k w
  = k (resolve_contact number w).1 (resolve_contact number w).2.
Proof. unfold resolve_contact. by destruct (contacts (siggo w) !! number). Qed.

Lemma bind_resolve_conversation {B} c (k : loc → M T B) w :
  bind (match conversations (siggo w) !! c with
        | Some conv => ret conv
        | None => newConversation c
        end) k w
  = k (resolve_conversation c w).1 (resolve_conversation c w).2.
Proof. unfold resolve_conversation. by destruct (conversations (siggo w) !! c). Qed.

Lemma resolve_contact_known (number : string) w c :
  contacts (siggo w) !! number = Some c → resolve_contact number w = (c, w).
Proof. unfold resolve_contact. by intros ->. Qed.

Lemma resolve_conversation_known c w cv :
  conversations (siggo w) !! c = Some cv → resolve_conversation c w = (cv, w).
Proof. unfold resolve_conversation. by intros ->. Qed.

Lemma resolve_contact_lookup (number : string) w :
  contacts (siggo (resolve_contact number w).2) !! number
  = Some (resolve_contact number w).1.
Proof.
  unfold resolve_contact.
  destruct (contacts (siggo w) !! number) eqn:Hc; simpl; [done|apply lookup_insert_eq].
Qed.

Lemma resolve_conversation_lookup c w :
  conversations (siggo (resolve_conversation c w).2) !! c
  = Some (resolve_conversation c w).1.
Proof.
  unfold resolve_conversation.
  destruct (conversations (siggo w) !! c) eqn:Hc; simpl; [done|apply lookup_insert_eq].
Qed.

Lemma resolve_contact_wf (number : string) w :
  wf w →
  wf (resolve_contact number w).2 ∧
  is_Some (contactStore (resolve_contact number w).2 !! (resolve_contact number w).1).
Proof.
  intros Hwf. unfold resolve_contact.
  destruct (contacts (siggo w) !! number) as [c|] eqn:Hc; simpl.
  - split; [done|]. destruct Hwf as (Hcontacts & _). by apply (Hcontacts number).
  - split; [by apply wf_newContact|]. rewrite lookup_insert_eq. eauto.
Qed.

Lemma resolve_conversation_wf c w :
  wf w → is_Some (contactStore w !! c) → wf (resolve_conversation c w).2.
Proof.
  intros Hwf Hc. unfold resolve_conversation.
  destruct (conversations (siggo w) !! c); simpl; [done|by apply wf_newConversation].
Qed.

Lemma resolve_lookup (number : string) w :
  contacts (siggo (resolve number w).2) !! number = Some (resolve_contact number w).1 ∧
  conversations (siggo (resolve number w).2) !! (resolve_contact number w).1
  = Some (resolve number w).1.
Proof.
  unfold resolve. split; [|apply resolve_conversation_lookup].
  pose proof (resolve_contact_lookup number w) as Hc.
  unfold resolve_conversation.
  by destruct (conversations (siggo (resolve_contact number w).2) !! _).
Qed.

Lemma resolve_wf (number : string) w : wf w → wf (resolve number w).2.
Proof.
  intros Hwf. destruct (resolve_contact_wf number w Hwf) as [Hwf1 Hc].
  by apply resolve_conversation_wf.
Qed.

Lemma resolve_messageStore (number : string) w :
  messageStore (resolve number w).2 = messageStore w.
Proof.
  unfold resolve, resolve_conversation, resolve_contact.
  destruct (contacts (siggo w) !! number); simpl;
    by destruct (conversations _ !! _).
Qed.

(** [onReceipt] as a function of the world: resolve the sender, then mark
    the targets in the resolved conversation. *)
Lemma onReceipt_closed w (msg : signal.Message) :
  wf w →
  ∃ conv,
    convStore (resolve (contactNumber msg) w).2 !! (resolve (contactNumber msg) w).1
    = Some conv ∧
    onReceipt msg w
    = Some (None,
            set_messageStore
              (λ _, marked (receiptMsg msg)
                      (targets conv (signal.ReceiptMessage_Timestamps (receiptMsg msg)))
                      (messageStore w))
              (resolve (contactNumber msg) w).2).
Proof.
  intros Hwf.
  pose proof (resolve_wf (contactNumber msg) w Hwf) as Hwf2.
  destruct (resolve_lookup (contactNumber msg) w) as [_ Hcv].
  pose proof Hwf2 as (_ & Hconvs & Hmsgs).
  destruct (Hconvs _ _ Hcv) as [_ [conv Hconv]].
  exists conv. split; [done|].
  unfold onReceipt.
  rewrite bind_get_siggo, bind_resolve_contact, bind_get_siggo, bind_resolve_conversation.
  fold (resolve (contactNumber msg) w).
  erewrite bind_Some; last first.
  { eapply (onReceipt_loop_run _ _ (messageStore w));
      [apply resolve_messageStore|exact Hconv|].
    rewrite <-(resolve_messageStore (contactNumber msg)). by apply (Hmsgs _ _ Hconv). }
  done.
Qed.

Lemma targets_empty (conv : Conversation) (tss : list Z) :
  Messages conv = ∅ → targets conv tss = [].
Proof.
  intros Hempty. unfold targets. induction tss as [|ts tss IH]; [done|].
  simpl. rewrite Hempty, lookup_empty.
  change (list_omap Z loc) with (@omap list _ Z loc). by rewrite <-Hempty.
Qed.

(** X10. A receipt from a sender that is not a key of the contact registry
    makes [onReceipt] register one new Contact, of that number and without a
    name, and one new empty Conversation for it, and return [nil]; no Message
    changes, whatever timestamps the receipt lists, and nothing is logged. *)
Theorem onReceipt_unknown_sender w (msg : signal.Message) :
  wf w →
  contacts (siggo w) !! contactNumber msg = None →
  onReceipt msg w
  = Some (None,
          set_siggo (set_conversations
                       (insert (fresh_loc (contactStore w)) (fresh_loc (convStore w))))
            (set_convStore
               (insert (fresh_loc (convStore w))
                  {| ConvContact := fresh_loc (contactStore w); Messages := ∅;
                     MessageOrder := []; HasNewMessage := false |})
               (set_siggo (set_contacts
                             (insert (contactNumber msg) (fresh_loc (contactStore w))))
                  (set_contactStore
                     (insert (fresh_loc (contactStore w))
                        {| Number := contactNumber msg; Name := "" |}) w)))).
Proof.
  intros Hwf Hnew. pose proof Hwf as (_ & Hconvs & _).
  destruct (onReceipt_closed w msg Hwf) as (conv & Hconv & ->).
  assert (conversations (siggo w) !! fresh_loc (contactStore w) = None) as Hcv.
  { destruct (conversations (siggo w) !! _) as [cv'|] eqn:Hcv'; [|done].
    destruct (Hconvs _ _ Hcv') as [[ct' Hct'] _]. by rewrite fresh_loc_None in Hct'. }
  revert Hconv. unfold resolve, resolve_contact. rewrite Hnew. simpl.
  unfold resolve_conversation. simpl. rewrite Hcv. simpl.
  rewrite lookup_insert_eq. intros [= <-].
  by rewrite targets_empty.
Qed.

Lemma marked_absorb (r1 r2 : signal.ReceiptMessage) (ls1 ls2 : list loc)
    (msgs : gmap loc Message) :
  ls1 ⊆ ls2 →
  marked r2 ls2 (marked r1 ls1 msgs) = marked r2 ls2 msgs.
Proof.
  intros Hsub. apply map_eq. intros l. rewrite !marked_lookup.
  destruct (decide (l ∈ ls2)) as [Hin2|Hnin2].
  - destruct (decide (l ∈ ls1)); [|done]. by destruct (msgs !! l).
  - rewrite decide_False; [done|]. intros Hin1. by apply Hnin2, Hsub.
Qed.

Lemma targets_mono conv (tss1 tss2 : list Z) :
  tss1 ⊆ tss2 → targets conv tss1 ⊆ targets conv tss2.
Proof.
  intros Hsub l. rewrite !elem_of_targets. intros (ts & Hts & Hl).
  exists ts. split; [by apply Hsub|done].
Qed.

(** X11. Of two receipts from the same sender, handled one after the other,
    the later one wins on every timestamp it lists: if it lists all the
    timestamps of the earlier one, the world after both is the world after
    the later one alone.  In particular, handling a receipt twice is handling
    it once. *)
Theorem onReceipt_later_wins w (msg1 msg2 : signal.Message) :
  wf w →
  contactNumber msg1 = contactNumber msg2 →
  signal.ReceiptMessage_Timestamps (receiptMsg msg1)
    ⊆ signal.ReceiptMessage_Timestamps (receiptMsg msg2) →
  bind (onReceipt msg1) (λ _, onReceipt msg2) w = onReceipt msg2 w.
Proof.
  intros Hwf Hsame Hsub.
  destruct (onReceipt_closed w msg1 Hwf) as (conv1 & Hconv1 & Hrun1).
  destruct (onReceipt_closed w msg2 Hwf) as (conv2 & Hconv2 & Hrun2).
  rewrite Hsame in Hconv1, Hrun1. rewrite Hconv1 in Hconv2. injection Hconv2 as <-.
  set (n := contactNumber msg2) in *.
  set (σ1 := marked (receiptMsg msg1)
               (targets conv1 (signal.ReceiptMessage_Timestamps (receiptMsg msg1)))
               (messageStore w)) in *.
  run_with Hrun1.
  assert (wf (set_messageStore (λ _, σ1) (resolve n w).2)) as Hwf'.
  { apply wf_messageStore; [by apply resolve_wf|].
    intros l. rewrite resolve_messageStore. unfold σ1. rewrite marked_lookup.
    case_decide; [|done]. by rewrite fmap_is_Some. }
  destruct (onReceipt_closed _ msg2 Hwf') as (conv & Hconv & ->).
  fold n in Hconv |- *.
  destruct (resolve_lookup n w) as [Hc Hcv].
  assert (resolve n (set_messageStore (λ _, σ1) (resolve n w).2)
          = ((resolve n w).1, set_messageStore (λ _, σ1) (resolve n w).2)) as Hres.
  { unfold resolve at 1.
    rewrite (resolve_contact_known n (set_messageStore (λ _, σ1) (resolve n w).2) _ Hc).
    simpl.
    by rewrite (resolve_conversation_known _
                  (set_messageStore (λ _, σ1) (resolve n w).2) _ Hcv). }
  rewrite Hres in Hconv |- *. simpl in Hconv |- *.
  rewrite Hconv1 in Hconv. injection Hconv as <-.
  rewrite Hrun2. unfold σ1. rewrite marked_absorb by by apply targets_mono.
  done.
Qed.

(** *** GetConversations on any contact list *)

Lemma GetConversations_loop_spec (cs : list (string * loc)) (acc : gmap loc loc) w :
  ∃ convs w',
    GetConversations_loop cs acc w = Some (convs, w') ∧
    (∀ c, is_Some (convs !! c) ↔ is_Some (acc !! c) ∨ c ∈ cs.*2) ∧
    (∀ c cv, convs !! c = Some cv →
       acc !! c = Some cv ∨
       convStore w !! cv = None ∧
       convStore w' !! cv = Some {| ConvContact := c; Messages := ∅;
                                    MessageOrder := []; HasNewMessage := false |}) ∧
    (∀ k x, convStore w !! k = Some x → convStore w' !! k = Some x) ∧
    contactStore w' = contactStore w ∧
    messageStore w' = messageStore w ∧
    siggo w' = siggo w ∧
    events w' = events w ++ (EvPrintAdding <$> cs.*2).
Proof.
  revert acc w. induction cs as [|[n contact] cs IH]; intros acc w.
  { exists acc, w. simpl. rewrite app_nil_r. split_and!; try done.
    - intros c. rewrite elem_of_nil. tauto.
    - intros c cv Hc. by left. }
  simpl GetConversations_loop. rewrite bind_emit.
  unfold NewConversation. unfold bind at 1. unfold alloc_conv at 1.
  cbv beta iota zeta.
  match goal with |- context [GetConversations_loop cs ?a ?v] =>
    destruct (IH a v) as (convs & w' & Hrun & Hdom & Hnew & Hkeep & Hcs & Hms & Hsig & Hev)
  end.
  simpl in Hnew, Hkeep, Hcs, Hms, Hsig, Hev.
  set (cv0 := fresh_loc (convStore w)) in *.
  exists convs, w'. rewrite Hrun. split_and!; try done.
  - intros c. rewrite Hdom. simpl. rewrite elem_of_cons, lookup_insert.
    destruct (decide (contact = c)) as [->|Hne].
    + split; [intros _; right; by left|intros _; left; eauto].
    + split; [intros [?|?]; [by left|right; by right]|].
      intros [?|[?|?]]; [by left|congruence|by right].
  - intros c cv Hc. destruct (Hnew _ _ Hc) as [Hacc|[Hfresh Hconv]].
    + rewrite lookup_insert in Hacc. case_decide as Heq.
      * injection Hacc as <-. subst c. right. split; [apply fresh_loc_None|].
        apply Hkeep. apply lookup_insert_eq.
      * by left.
    + right. split; [|done].
      rewrite lookup_insert in Hfresh. by case_decide.
  - intros k x Hk. apply Hkeep. rewrite lookup_insert_ne; [done|].
    intros <-. unfold cv0 in Hk. by rewrite fresh_loc_None in Hk.
  - rewrite Hev. simpl. by rewrite <-app_assoc.
Qed.

(** X9. For any contact list, [GetConversations] returns a registry whose
    keys are exactly the contact pointers of the list, each mapped to a new
    conversation of that contact, empty and without new messages; it prints
    one line per entry of the list and changes nothing else. *)
Theorem GetConversations_spec (userNumber : string) (cts : gmap string loc) w :
  ∃ convs w',
    GetConversations userNumber cts w = Some (convs, w') ∧
    (∀ c, is_Some (convs !! c) ↔ ∃ n, cts !! n = Some c) ∧
    (∀ c cv, convs !! c = Some cv →
       convStore w !! cv = None ∧
       convStore w' !! cv = Some {| ConvContact := c; Messages := ∅;
                                    MessageOrder := []; HasNewMessage := false |}) ∧
    (∀ k x, convStore w !! k = Some x → convStore w' !! k = Some x) ∧
    contactStore w' = contactStore w ∧
    messageStore w' = messageStore w ∧
    siggo w' = siggo w ∧
    length (events w') = (length (events w) + size cts)%nat.
Proof.
  unfold GetConversations.
  destruct (GetConversations_loop_spec (map_to_list cts) ∅ w)
    as (convs & w' & Hrun & Hdom & Hnew & Hkeep & Hcs & Hms & Hsig & Hev).
  exists convs, w'. split_and!; try done.
  - intros c. rewrite Hdom, lookup_empty, list_elem_of_fmap. split.
    + intros [[? [=]]|([n c'] & -> & Hin)].
      exists n. by apply elem_of_map_to_list.
    + intros [n Hn]. right. exists (n, c). split; [done|].
      by apply elem_of_map_to_list.
  - intros c cv Hc. destruct (Hnew _ _ Hc) as [Hacc|?]; [|done].
    by rewrite lookup_empty in Hacc.
  - rewrite Hev, length_app, !length_fmap. by rewrite length_map_to_list.
Qed.

(** *** Nothing is ever taken away *)

Lemma extends_refl w : extends w w.
Proof.
  unfold extends. split_and!; try done.
  - intros l m Hl. by exists m.
  - intros cv conv Hcv. by exists conv.
Qed.

Lemma extends_trans w1 w2 w3 : extends w1 w2 → extends w2 w3 → extends w1 w3.
Proof.
  intros (Hn1 & Hc1 & Hs1 & Hm1 & Hv1 & He1) (Hn2 & Hc2 & Hs2 & Hm2 & Hv2 & He2).
  unfold extends. split_and!.
  - intros n c Hn. by apply Hn2, Hn1.
  - intros c cv Hc. by apply Hc2, Hc1.
  - intros c ct Hc. by apply Hs2, Hs1.
  - intros l m Hl. destruct (Hm1 _ _ Hl) as (m' & Hl' & ? & ? & ?).
    destruct (Hm2 _ _ Hl') as (m'' & Hl'' & ? & ? & ?).
    exists m''. split_and!; [done|congruence..].
  - intros cv conv Hcv.
    destruct (Hv1 _ _ Hcv) as (conv' & Hcv' & ? & Hp1 & Hk1 & Hf1).
    destruct (Hv2 _ _ Hcv') as (conv'' & Hcv'' & ? & Hp2 & Hk2 & Hf2).
    exists conv''. split_and!; [done|congruence|by etrans|auto..].
  - by etrans.
Qed.

Lemma extends_resolve_contact (number : string) w : extends w (resolve_contact number w).2.
Proof.
  unfold resolve_contact.
  destruct (contacts (siggo w) !! number) as [c|] eqn:Hn; simpl; [apply extends_refl|].
  unfold extends; simpl. split_and!; try done.
  - intros n c Hc. rewrite lookup_insert_ne; [done|]. intros <-. congruence.
  - intros c ct Hc. rewrite lookup_insert_ne; [done|].
    intros <-. by rewrite fresh_loc_None in Hc.
  - intros l m Hl. by exists m.
  - intros cv conv Hcv. by exists conv.
Qed.

Lemma extends_resolve_conversation c w : extends w (resolve_conversation c w).2.
Proof.
  unfold resolve_conversation.
  destruct (conversations (siggo w) !! c) as [cv|] eqn:Hc; simpl; [apply extends_refl|].
  unfold extends; simpl. split_and!; try done.
  - intros c' cv' Hc'. rewrite lookup_insert_ne; [done|]. intros <-. congruence.
  - intros l m Hl. by exists m.
  - intros cv conv Hcv. exists conv. split_and!; try done.
    rewrite lookup_insert_ne; [done|]. intros <-. by rewrite fresh_loc_None in Hcv.
Qed.

Lemma extends_marked (r : signal.ReceiptMessage) (ls : list loc) w :
  extends w (set_messageStore (marked r ls) w).
Proof.
  unfold extends; simpl. split_and!; try done.
  - intros l m Hl. rewrite marked_lookup, Hl.
    case_decide; simpl; eexists; split_and!; done.
  - intros cv conv Hcv. by exists conv.
Qed.

Lemma extends_alloc_message m w :
  extends w (set_messageStore (insert (fresh_loc (messageStore w)) m) w).
Proof.
  unfold extends; simpl. split_and!; try done.
  - intros l m' Hl. exists m'. split_and!; try done.
    rewrite lookup_insert_ne; [done|]. intros <-. by rewrite fresh_loc_None in Hl.
  - intros cv conv Hcv. by exists conv.
Qed.

Lemma is_Some_insert_Z {V} (σ : gmap Z V) (i k : Z) (x : V) :
  is_Some (σ !! k) → is_Some (<[i := x]> σ !! k).
Proof. intros Hk. rewrite lookup_insert. case_decide; eauto. Qed.

Lemma extends_AddMessage_result w c conv (ts : Z) (message : loc) :
  convStore w !! c = Some conv →
  extends w (set_convStore (insert c (AddMessage_result conv ts message)) w).
Proof.
  intros Hc. unfold extends; simpl. split_and!; try done.
  - intros l m Hl. by exists m.
  - intros cv conv0 Hcv. rewrite lookup_insert. case_decide as Heq; [|by exists conv0].
    subst cv. rewrite Hc in Hcv. injection Hcv as <-.
    eexists. split; [done|]. unfold AddMessage_result.
    destruct (Messages conv !! ts) eqn:Hts; simpl; split_and!; try done.
    + intros k Hk. by apply is_Some_insert_Z.
    + by apply prefix_app_r.
    + intros k Hk. by apply is_Some_insert_Z.
Qed.

Lemma extends_view w w1 w2 :
  extends w w1 →
  contacts (siggo w2) = contacts (siggo w1) →
  conversations (siggo w2) = conversations (siggo w1) →
  contactStore w2 = contactStore w1 →
  messageStore w2 = messageStore w1 →
  convStore w2 = convStore w1 →
  events w2 = events w1 →
  extends w w2.
Proof. unfold extends. by intros ? -> -> -> -> -> ->. Qed.

Lemma onReceived_extends w (msg : signal.Message) r w' :
  wf w → onReceived msg w = Some (r, w') → extends w w'.
Proof.
  intros Hwf Hstep.
  destruct (onReceived_run w msg Hwf)
    as (c & cv & ct & conv0 & logs & w1 & Hrun & Hcontact & Hct & Hconv & Hmsg
        & Hstore & _ & _ & Hev & _).
  rewrite Hrun in Hstep. injection Hstep as _ <-.
  unfold extends. split_and!.
  - intros n c' Hn. destruct (contacts (siggo w) !! contactNumber msg) eqn:Hc.
    + destruct Hcontact as (_ & _ & ->). done.
    + destruct Hcontact as (_ & _ & _ & -> & _).
      rewrite lookup_insert_ne; [done|]. intros <-. congruence.
  - intros c' cv' Hc'. destruct (conversations (siggo w) !! c) eqn:Hcv.
    + destruct Hconv as (_ & _ & ->). done.
    + destruct Hconv as (_ & _ & ->).
      rewrite lookup_insert_ne; [done|]. intros <-. congruence.
  - intros c' ct' Hc'. destruct (contacts (siggo w) !! contactNumber msg).
    + destruct Hcontact as (_ & -> & _). done.
    + destruct Hcontact as (Hfresh & _ & -> & _).
      rewrite lookup_insert_ne; [done|]. intros <-. congruence.
  - intros l m Hl. exists m. split_and!; try done. rewrite Hmsg.
    rewrite lookup_insert_ne; [done|]. intros <-. by rewrite fresh_loc_None in Hl.
  - intros cv' conv Hcv'. rewrite Hstore, lookup_insert.
    destruct (decide (cv = cv')) as [<-|Hne]; last first.
    { by exists conv. }
    assert (conv0 = conv) as ->.
    { destruct (conversations (siggo w) !! c).
      - destruct Hconv as (_ & Hconv0 & _). congruence.
      - destruct Hconv as (Hfresh & _). congruence. }
    eexists. split; [done|]. unfold AddMessage_result.
    destruct (Messages conv !! _) eqn:Hts; simpl; split_and!; try done.
    + intros k Hk. by apply is_Some_insert_Z.
    + by apply prefix_app_r.
    + intros k Hk. by apply is_Some_insert_Z.
  - rewrite Hev. by apply prefix_app_r.
Qed.

Lemma onReceipt_extends w (msg : signal.Message) r w' :
  wf w → onReceipt msg w = Some (r, w') → extends w w'.
Proof.
  intros Hwf Hstep.
  destruct (onReceipt_closed w msg Hwf) as (conv & Hconv & Hrun).
  rewrite Hrun in Hstep. injection Hstep as _ <-.
  rewrite <-(resolve_messageStore (contactNumber msg) w).
  eapply extends_trans; [|apply (extends_marked (receiptMsg msg)
    (targets conv (signal.ReceiptMessage_Timestamps (receiptMsg msg))))].
  unfold resolve.
  eapply extends_trans; [apply extends_resolve_contact|apply extends_resolve_conversation].
Qed.

Lemma resolve_conversation_messageStore c w :
  messageStore (resolve_conversation c w).2 = messageStore w.
Proof. unfold resolve_conversation. by destruct (conversations (siggo w) !! c). Qed.

Lemma Send_extends w (text : string) (contact : loc) r w' :
  wf w → Send text contact w = Some (r, w') → extends w w'.
Proof.
  intros Hwf Hstep.
  destruct (contactStore w !! contact) as [ct|] eqn:Hct; last first.
  { by rewrite Send_None in Hstep. }
  rewrite (Send_closed _ _ _ _ Hwf Hct) in Hstep. injection Hstep as _ <-.
  eapply extends_view; [|done..].
  eapply extends_trans; [apply (extends_resolve_conversation contact)|].
  rewrite <-(resolve_conversation_messageStore contact w).
  apply extends_alloc_message.
Qed.

Lemma AddMessage_extends w c (message : loc) w' :
  AddMessage c message w = Some (tt, w') → extends w w'.
Proof.
  intros Hstep.
  destruct (convStore w !! c) as [conv|] eqn:Hc; last first.
  { rewrite AddMessage_None in Hstep by by left. done. }
  destruct (messageStore w !! message) as [m|] eqn:Hm; last first.
  { rewrite AddMessage_None in Hstep by by right. done. }
  rewrite (AddMessage_run _ _ _ _ _ Hc Hm) in Hstep. injection Hstep as <-.
  by apply extends_AddMessage_result.
Qed.

Lemma step_extends w w' : wf w → step w w' → extends w w'.
Proof.
  intros Hwf Hstep.
  destruct Hstep as [msg r w w' Hrun|msg r w w' Hrun|text contact r w w' Hrun
                    |c message w w' Hrun].
  - exact (onReceived_extends _ _ _ _ Hwf Hrun).
  - exact (onReceipt_extends _ _ _ _ Hwf Hrun).
  - exact (Send_extends _ _ _ _ _ Hwf Hrun).
  - exact (AddMessage_extends _ _ _ _ Hrun).
Qed.

(** X12. From a reachable world on, no sequence of calls takes anything
    away: registry entries are neither removed nor replaced, Contacts do not
    change, Messages keep their text, sender and timestamp, conversations
    keep their contact, their keys and their order (which only grows at the
    end), [HasNewMessage] is never cleared, and the trace only grows. *)
Theorem reachable_extends (sig : T) (cfg : Config) w w' :
  reachable sig cfg w → rtc step w w' → extends w w'.
Proof.
  intros [Hwf Hord]%reachable_consistent Hsteps.
  induction Hsteps as [w|w w1 w2 Hstep _ IH]; [apply extends_refl|].
  destruct (step_consistent _ _ Hwf Hord Hstep) as [Hwf1 Hord1].
  eapply extends_trans; [by apply step_extends|by apply IH].
Qed.

(** *** Keys agree with what they point to *)

Lemma keyed_view w1 w2 :
  keyed w1 →
  contacts (siggo w2) = contacts (siggo w1) →
  conversations (siggo w2) = conversations (siggo w1) →
  contactStore w2 = contactStore w1 →
  messageStore w2 = messageStore w1 →
  convStore w2 = convStore w1 →
  keyed w2.
Proof. unfold keyed. by intros ? -> -> -> -> ->. Qed.

Lemma keyed_resolve_contact (number : string) w :
  wf w → keyed w → keyed (resolve_contact number w).2.
Proof.
  intros (Hcontacts & _) (Hk1 & Hk2 & Hk3). unfold resolve_contact.
  destruct (contacts (siggo w) !! number) as [c|] eqn:Hn; simpl; [done|].
  unfold keyed; simpl. split_and!; [|done..].
  intros n c ct. rewrite lookup_insert. destruct (decide (number = n)) as [->|Hne].
  - intros [= <-]. rewrite lookup_insert_eq. by intros [= <-].
  - intros Hc. destruct (Hcontacts _ _ Hc) as [ct' Hct'].
    rewrite lookup_insert_ne; [by apply Hk1|].
    intros <-. by rewrite fresh_loc_None in Hct'.
Qed.

Lemma keyed_resolve_conversation c w :
  wf w → keyed w → keyed (resolve_conversation c w).2.
Proof.
  intros (_ & Hconvs & _) (Hk1 & Hk2 & Hk3). unfold resolve_conversation.
  destruct (conversations (siggo w) !! c) as [cv|] eqn:Hc; simpl; [done|].
  unfold keyed; simpl. split_and!; [done| |].
  - intros c' cv' conv. rewrite lookup_insert. destruct (decide (c = c')) as [->|Hne].
    + intros [= <-]. rewrite lookup_insert_eq. by intros [= <-].
    + intros Hc'. destruct (Hconvs _ _ Hc') as [_ [conv' Hconv']].
      rewrite lookup_insert_ne; [by apply Hk2|].
      intros <-. by rewrite fresh_loc_None in Hconv'.
  - intros cv' conv ts l m. rewrite lookup_insert. case_decide.
    + intros [= <-]. simpl. by rewrite lookup_empty.
    + apply Hk3.
Qed.

Lemma keyed_marked (r : signal.ReceiptMessage) (ls : list loc) w :
  keyed w → keyed (set_messageStore (marked r ls) w).
Proof.
  intros (Hk1 & Hk2 & Hk3). unfold keyed; simpl. split_and!; [done..|].
  intros cv conv ts l m Hcv Hl. rewrite marked_lookup.
  destruct (messageStore w !! l) as [m0|] eqn:Hm0; last by case_decide.
  pose proof (Hk3 _ _ _ _ _ Hcv Hl Hm0) as Hts.
  case_decide; simpl; by intros [= <-].
Qed.

Lemma keyed_alloc_message m w :
  wf w → keyed w →
  keyed (set_messageStore (insert (fresh_loc (messageStore w)) m) w).
Proof.
  intros (_ & _ & Hmsgs) (Hk1 & Hk2 & Hk3). unfold keyed; simpl. split_and!; [done..|].
  intros cv conv ts l m' Hcv Hl. destruct (Hmsgs _ _ Hcv _ _ Hl) as [m0 Hm0].
  rewrite lookup_insert_ne; [by apply (Hk3 cv conv)|].
  intros <-. by rewrite fresh_loc_None in Hm0.
Qed.

Lemma keyed_AddMessage_result w cv conv (message : loc) m :
  keyed w →
  convStore w !! cv = Some conv →
  messageStore w !! message = Some m →
  keyed (set_convStore (insert cv (AddMessage_result conv (Timestamp m) message)) w).
Proof.
  intros (Hk1 & Hk2 & Hk3) Hcv Hm. unfold keyed; simpl. split_and!; [done| |].
  - intros c cv' conv' Hc. rewrite lookup_insert. case_decide as Heq.
    + subst cv'. intros [= <-].
      assert (ConvContact (AddMessage_result conv (Timestamp m) message)
              = ConvContact conv) as ->.
      { unfold AddMessage_result. by destruct (Messages conv !! _). }
      by apply (Hk2 c cv).
    + by apply Hk2.
  - intros cv' conv' ts l m'. rewrite lookup_insert. case_decide as Heq; [|apply Hk3].
    intros [= <-].
    assert (Messages (AddMessage_result conv (Timestamp m) message)
            = <[Timestamp m := message]> (Messages conv)) as ->.
    { unfold AddMessage_result. by destruct (Messages conv !! _). }
    rewrite lookup_insert. case_decide as Hts.
    + intros [= <-]. rewrite Hm. by intros [= <-].
    + by apply (Hk3 cv conv).
Qed.

Lemma onReceipt_keyed w (msg : signal.Message) r w' :
  wf w → keyed w → onReceipt msg w = Some (r, w') → keyed w'.
Proof.
  intros Hwf Hk Hstep.
  destruct (onReceipt_closed w msg Hwf) as (conv & Hconv & Hrun).
  rewrite Hrun in Hstep. injection Hstep as _ <-.
  rewrite <-(resolve_messageStore (contactNumber msg) w).
  apply (keyed_marked (receiptMsg msg)
           (targets conv (signal.ReceiptMessage_Timestamps (receiptMsg msg)))).
  unfold resolve. destruct (resolve_contact_wf (contactNumber msg) w Hwf) as [Hwf1 _].
  apply keyed_resolve_conversation; [done|]. by apply keyed_resolve_contact.
Qed.

Lemma Send_keyed w (text : string) (contact : loc) r w' :
  wf w → keyed w → Send text contact w = Some (r, w') → keyed w'.
Proof.
  intros Hwf Hk Hstep.
  destruct (contactStore w !! contact) as [ct|] eqn:Hct; last first.
  { by rewrite Send_None in Hstep. }
  rewrite (Send_closed _ _ _ _ Hwf Hct) in Hstep. injection Hstep as _ <-.
  apply (keyed_view
           (set_messageStore
              (insert (fresh_loc (messageStore w))
                 {| Content := text; From := UserName (config (siggo w));
                    Timestamp := 0; IsDelivered := false; IsRead := false |})
              (resolve_conversation contact w).2)); [|done..].
  rewrite <-(resolve_conversation_messageStore contact w).
  apply keyed_alloc_message.
  - apply resolve_conversation_wf; [done|]. rewrite Hct. eauto.
  - by apply keyed_resolve_conversation.
Qed.

Lemma AddMessage_keyed w c (message : loc) w' :
  keyed w → AddMessage c message w = Some (tt, w') → keyed w'.
Proof.
  intros Hk Hstep.
  destruct (convStore w !! c) as [conv|] eqn:Hc; last first.
  { rewrite AddMessage_None in Hstep by by left. done. }
  destruct (messageStore w !! message) as [m|] eqn:Hm; last first.
  { rewrite AddMessage_None in Hstep by by right. done. }
  rewrite (AddMessage_run _ _ _ _ _ Hc Hm) in Hstep. injection Hstep as <-.
  by apply keyed_AddMessage_result.
Qed.

Lemma onReceived_keyed w (msg : signal.Message) r w' :
  wf w → keyed w → onReceived msg w = Some (r, w') → keyed w'.
Proof.
  intros Hwf (Hk1 & Hk2 & Hk3) Hstep. pose proof Hwf as (Hcontacts & Hconvs & Hmsgs).
  destruct (onReceived_run w msg Hwf)
    as (c & cv & ct & conv0 & logs & w1 & Hrun & Hcontact & Hct & Hconv & Hmsg
        & Hstore & _).
  rewrite Hrun in Hstep. injection Hstep as _ <-.
  set (ts := signal.DataMessage_Timestamp
               (signal.Envelope_DataMessage (signal.Message_Envelope msg))) in *.
  set (ml := fresh_loc (messageStore w)) in *.
  assert (Messages (AddMessage_result conv0 ts ml) = <[ts := ml]> (Messages conv0)) as HM.
  { unfold AddMessage_result. by destruct (Messages conv0 !! _). }
  assert (ConvContact (AddMessage_result conv0 ts ml) = ConvContact conv0) as HC.
  { unfold AddMessage_result. by destruct (Messages conv0 !! _). }
  assert (∀ ts' l, Messages conv0 !! ts' = Some l → is_Some (messageStore w !! l)
                   ∧ ∀ m, messageStore w !! l = Some m → Timestamp m = ts') as Hconv0.
  { intros ts' l Hl. destruct (conversations (siggo w) !! c).
    - destruct Hconv as (_ & Hcv0 & _).
      split; [by apply (Hmsgs _ _ Hcv0 ts')|]. intros m. by apply (Hk3 cv conv0).
    - destruct Hconv as (_ & -> & _). simpl in Hl. by rewrite lookup_empty in Hl. }
  unfold keyed. split_and!.
  - intros n c' ct' Hn Hc'. destruct (contacts (siggo w) !! contactNumber msg) eqn:Hc.
    + destruct Hcontact as (_ & Hcs & Hreg). rewrite Hreg in Hn. rewrite Hcs in Hc'.
      by apply (Hk1 n c').
    + destruct Hcontact as (Hfresh & -> & Hcs & Hreg & _).
      rewrite Hreg in Hn. rewrite Hcs in Hc'. rewrite lookup_insert in Hn.
      destruct (decide (contactNumber msg = n)) as [<-|Hne].
      * injection Hn as <-. rewrite lookup_insert_eq in Hc'. by injection Hc' as <-.
      * destruct (Hcontacts _ _ Hn) as [ct0 Hct0].
        rewrite lookup_insert_ne in Hc' by (intros <-; congruence).
        by apply (Hk1 n c').
  - intros c' cv' conv' Hc' Hcv'. rewrite Hstore in Hcv'.
    destruct (conversations (siggo w) !! c) as [cv0|] eqn:Hcv.
    + destruct Hconv as (-> & Hcv0 & Hreg). rewrite Hreg in Hc'.
      rewrite lookup_insert in Hcv'. destruct (decide (cv0 = cv')) as [<-|Hne].
      * injection Hcv' as <-. rewrite HC. by apply (Hk2 c' cv0).
      * by apply (Hk2 c' cv').
    + destruct Hconv as (Hfresh & -> & Hreg). rewrite Hreg in Hc'.
      rewrite lookup_insert in Hc'. destruct (decide (c = c')) as [<-|Hne].
      * injection Hc' as <-. rewrite lookup_insert_eq in Hcv'. injection Hcv' as <-.
        by rewrite HC.
      * destruct (Hconvs _ _ Hc') as [_ [conv0' Hconv0']].
        rewrite lookup_insert_ne in Hcv' by (intros <-; congruence).
        by apply (Hk2 c' cv').
  - intros cv' conv' ts' l m Hcv' Hl Hm. rewrite Hstore in Hcv'. rewrite Hmsg in Hm.
    rewrite lookup_insert in Hcv'. destruct (decide (cv = cv')) as [<-|Hne].
    + injection Hcv' as <-. rewrite HM, lookup_insert in Hl.
      destruct (decide (ts = ts')) as [<-|Hts].
      * injection Hl as <-. rewrite lookup_insert_eq in Hm. by injection Hm as <-.
      * destruct (Hconv0 _ _ Hl) as [[m0 Hm0] Hkey].
        rewrite lookup_insert_ne in Hm by (intros <-; unfold ml in Hm0;
                                           by rewrite fresh_loc_None in Hm0).
        by apply Hkey.
    + destruct (Hmsgs _ _ Hcv' _ _ Hl) as [m0 Hm0].
      rewrite lookup_insert_ne in Hm by (intros <-; unfold ml in Hm0;
                                         by rewrite fresh_loc_None in Hm0).
      by apply (Hk3 cv' conv' ts' l).
Qed.

Lemma NewSiggo_keyed (sig : T) (cfg : Config) w0 :
  NewSiggo sig cfg (boot sig cfg) = Some (tt, w0) → keyed w0.
Proof.
  unfold NewSiggo, GetContacts, GetConversations.
  unfold bind at 1. unfold alloc_contact at 1. unfold bind at 1. unfold ret at 1.
  rewrite insert_empty, map_to_list_singleton. simpl. intros [= <-].
  unfold keyed; simpl. rewrite !insert_empty. split_and!.
  - intros n c ct [<- <-]%lookup_singleton_Some. rewrite lookup_singleton_eq.
    by intros [= <-].
  - intros c cv conv [<- <-]%lookup_singleton_Some. rewrite lookup_singleton_eq.
    by intros [= <-].
  - intros cv conv ts l m [<- <-]%lookup_singleton_Some. simpl.
    by rewrite lookup_empty.
Qed.

Lemma step_keyed w w' : wf w → keyed w → step w w' → keyed w'.
Proof.
  intros Hwf Hk Hstep.
  destruct Hstep as [msg r w w' Hrun|msg r w w' Hrun|text contact r w w' Hrun
                    |c message w w' Hrun].
  - exact (onReceived_keyed _ _ _ _ Hwf Hk Hrun).
  - exact (onReceipt_keyed _ _ _ _ Hwf Hk Hrun).
  - exact (Send_keyed _ _ _ _ _ Hwf Hk Hrun).
  - exact (AddMessage_keyed _ _ _ _ Hk Hrun).
Qed.

(** X13. In every reachable world each registered contact is registered
    under its own number, each registered conversation under its own
    contact, and each Message of a conversation under its own timestamp. *)
Theorem reachable_keyed (sig : T) (cfg : Config) w :
  reachable sig cfg w → keyed w.
Proof.
  intros (w0 & Hnew & Hsteps).
  pose proof (NewSiggo_keyed _ _ _ Hnew) as Hk0.
  destruct (NewSiggo_consistent sig cfg) as (w0' & Hnew' & Hwf0 & Hord0).
  rewrite Hnew in Hnew'. injection Hnew' as <-. clear Hnew.
  induction Hsteps as [w|w w1 w2 Hstep _ IH]; [done|].
  destruct (step_consistent _ _ Hwf0 Hord0 Hstep) as [Hwf1 Hord1].
  apply IH; [exact (step_keyed _ _ Hwf0 Hk0 Hstep)|done..].
Qed.

(** X8. When the timestamp of the Message is already a key, at position [i]
    of the order of an ordered conversation, [AddMessage] replaces the line
    at that position by the line of the Message and leaves every other line
    of the rendering where and as it was. *)
Theorem AddMessage_replaces_line w c (message : loc) conv m (i : nat)
    (lines : list string) :
  convStore w !! c = Some conv →
  ordered conv →
  messageStore w !! message = Some m →
  MessageOrder conv !! i = Some (Timestamp m) →
  mapM (stored_line (messageStore w) conv) (MessageOrder conv) = Some lines →
  Conversation_String c w = Some (String.concat "" lines, w) ∧
  ∃ w', AddMessage c message w = Some (tt, w') ∧
        Conversation_String c w'
        = Some (String.concat "" (<[i := Message_String m]> lines), w').
Proof.
  intros Hc [Hnd Hkeys] Hm Hi Hlines. split.
  { unfold Conversation_String, bind, load_conv. rewrite Hc. simpl.
    by rewrite Conversation_String_loop_acc, Hlines. }
  eexists. split; [by apply AddMessage_run|].
  assert (is_Some (Messages conv !! Timestamp m)) as [old Hold].
  { apply Hkeys. by eapply list_elem_of_lookup_2. }
  unfold Conversation_String, bind, load_conv. simpl. rewrite lookup_insert_eq. simpl.
  unfold AddMessage_result. rewrite Hold. simpl.
  rewrite Conversation_String_loop_acc. simpl.
  assert (mapM (stored_line (messageStore w)
                  (set_Messages (insert (Timestamp m) message) conv))
               (MessageOrder conv)
          = Some (<[i := Message_String m]> lines)) as ->; [|done].
  apply mapM_Some. apply mapM_Some in Hlines.
  apply Forall2_same_length_lookup. split.
  { rewrite length_insert. by eapply Forall2_length. }
  intros j k line Hk. rewrite list_lookup_insert.
  pose proof (lookup_lt_Some _ _ _ Hk) as Hlt.
  rewrite (Forall2_length _ _ _ Hlines) in Hlt.
  destruct (decide (i = j)) as [<-|Hne].
  - rewrite decide_True by done. intros [= <-].
    rewrite Hi in Hk. injection Hk as <-.
    unfold stored_line; simpl. rewrite lookup_insert_eq; simpl. rewrite Hm; simpl.
    by rewrite Message_String_line_form.
  - rewrite decide_False by tauto. intros Hline.
    pose proof (Forall2_lookup_lr _ _ _ _ _ _ Hlines Hk Hline) as Hold_line.
    unfold stored_line in *; simpl. rewrite lookup_insert_ne; [done|].
    intros <-. apply Hne. by eapply NoDup_lookup.
Qed.

(** *** Pointer identity *)

Lemma Send_wf w (text : string) (contact : loc) (ct : Contact) :
  wf w →
  contactStore w !! contact = Some ct →
  wf (set_siggo (set_signal (signal_Send (signal (siggo w)) (Number ct) text).1)
        (set_messageStore
           (insert (fresh_loc (messageStore w))
              {| Content := text; From := UserName (config (siggo w));
                 Timestamp := 0; IsDelivered := false; IsRead := false |})
           (resolve_conversation contact w).2)).
Proof.
  intros Hwf Hct.
  apply (wf_ext (set_messageStore
           (λ _, <[fresh_loc (messageStore w) :=
                     {| Content := text; From := UserName (config (siggo w));
                        Timestamp := 0; IsDelivered := false; IsRead := false |}]>
                   (messageStore (resolve_conversation contact w).2))
           (resolve_conversation contact w).2)); try done.
  apply wf_messageStore.
  - apply resolve_conversation_wf; [done|]. rewrite Hct. eauto.
  - intros l. apply is_Some_insert.
Qed.

(** X5. Conversations are keyed by the contact pointer, not by the number.
    After [Send] to a Contact whose number is not in the contact registry, a
    message received from that very number does not land in the conversation
    of the [Send]: [onReceived] registers a second Contact with the same
    number and gives it a conversation of its own. *)
Theorem Send_then_onReceived w (text : string) (contact : loc) (ct : Contact)
    (msg : signal.Message) :
  wf w →
  contactStore w !! contact = Some ct →
  Number ct = contactNumber msg →
  contacts (siggo w) !! contactNumber msg = None →
  ∃ r w1 w2 c cv1 cv2,
    Send text contact w = Some (r, w1) ∧
    onReceived msg w1 = Some (None, w2) ∧
    contacts (siggo w2) !! contactNumber msg = Some c ∧
    c ≠ contact ∧
    contactStore w2 !! contact = Some ct ∧
    contactStore w2 !! c = Some {| Number := contactNumber msg; Name := "" |} ∧
    conversations (siggo w2) !! contact = Some cv1 ∧
    conversations (siggo w2) !! c = Some cv2 ∧
    cv1 ≠ cv2.
Proof.
  intros Hwf Hct Hnum Hnew.
  pose proof (Send_closed w text contact ct Hwf Hct) as Hsend.
  pose proof (Send_wf w text contact ct Hwf Hct) as Hwf1.
  set (w1 := set_siggo _ _) in Hsend, Hwf1.
  assert (contactStore w1 = contactStore w ∧ contacts (siggo w1) = contacts (siggo w))
    as [Hcs1 Hreg1].
  { unfold w1, resolve_conversation.
    by destruct (conversations (siggo w) !! contact). }
  assert (conversations (siggo w1) !! contact = Some (resolve_conversation contact w).1)
    as Hcv1.
  { apply (resolve_conversation_lookup contact w). }
  destruct (onReceived_run w1 msg Hwf1)
    as (c & cv & ct' & conv0 & logs & w2 & Hrun & Hcontact & Hct' & Hconv & _).
  rewrite Hreg1, Hnew in Hcontact.
  destruct Hcontact as (Hfresh & -> & Hcs2 & Hreg2 & Hcvnone).
  rewrite Hcvnone in Hconv. destruct Hconv as (Hcvfresh & _ & Hconvs2).
  assert (c ≠ contact) as Hne.
  { intros ->. rewrite Hcs1 in Hfresh. congruence. }
  eexists _, w1, w2, c, _, cv. split_and!; try done.
  - rewrite Hreg2. apply lookup_insert_eq.
  - rewrite Hcs2, lookup_insert_ne, Hcs1; done.
  - rewrite Hconvs2, lookup_insert_ne; done.
  - rewrite Hconvs2. apply lookup_insert_eq.
  - intros Heq. destruct Hwf1 as (_ & Hconvs1 & _).
    destruct (Hconvs1 _ _ Hcv1) as [_ [conv1 Hconv1]].
    rewrite Heq in Hconv1. congruence.
Qed.

End further.


(** ** The statements at concrete worlds *)

Import Examples.

Example render_heard :
  rendered_after (onReceived (received "+1555" "hi" 100)) "+1555"
  = Some ("100|<? +1555: hi" +:+ newline).
Proof. by vm_compute. Qed.

Example render_receipt :
  rendered_after (onReceived (received "+1555" "hi" 100) ;;
                  onReceipt (receipt "+1555" true true [100%Z]))%go "+1555"
  = Some ("100|<> +1555: hi" +:+ newline).
Proof. by vm_compute. Qed.

(** Insertion order, not timestamp order. *)
Example render_out_of_order :
  rendered_after (onReceived (received "+1555" "hi" 100) ;;
                  onReceived (received "+1555" "yo" 50))%go "+1555"
  = Some ("100|<? +1555: hi" +:+ newline +:+ "50|<? +1555: yo" +:+ newline).
Proof. by vm_compute. Qed.


Ltac by_computation := apply (bool_decide_unpack _); vm_compute; exact I.

(** [AddMessage] of the stored Message again: the timestamp is a key. *)
Lemma AddMessage_spec_witness :
  convStore heard !! 2%positive = Some hi_conv ∧
  messageStore heard !! 1%positive = Some hi ∧
  ∃ conv',
    AddMessage 2 1 heard = Some (tt, set_convStore (insert 2%positive conv') heard) ∧
    ConvContact conv' = ConvContact hi_conv ∧
    Messages conv' = <[Timestamp hi := 1%positive]> (Messages hi_conv) ∧
    match Messages hi_conv !! Timestamp hi with
    | None =>
        MessageOrder conv' = MessageOrder hi_conv ++ [Timestamp hi] ∧
        HasNewMessage conv' = true
    | Some _ =>
        MessageOrder conv' = MessageOrder hi_conv ∧
        HasNewMessage conv' = HasNewMessage hi_conv
    end.
Proof.
  split; [reflexivity|]. split; [reflexivity|].
  apply (AddMessage_spec heard 2%positive 1%positive hi_conv hi); reflexivity.
Defined.

(** Three calls on the conversation of "me", which is empty: a later
    timestamp first, an earlier one second, the first one again. *)
Lemma AddMessages_order_witness :
  convStore heard_twice !! 1%positive
  = Some {| ConvContact := 1%positive; Messages := ∅; MessageOrder := [];
            HasNewMessage := false |} ∧
  Forall2 (λ l ts, ∃ m, messageStore heard_twice !! l = Some m ∧ Timestamp m = ts)
    [1; 2; 1]%positive [100; 50; 100]%Z ∧
  ∃ conv',
    AddMessages 1 [1; 2; 1]%positive heard_twice
    = Some (tt, set_convStore (insert 1%positive conv') heard_twice) ∧
    NoDup (MessageOrder conv') ∧
    (∀ k, k ∈ MessageOrder conv' ↔ is_Some (Messages conv' !! k)) ∧
    length (MessageOrder conv') = size (list_to_set [100; 50; 100]%Z : gset Z) ∧
    MessageOrder conv' = first_insertions [] [100; 50; 100]%Z.
Proof.
  assert (Forall2 (λ l ts, ∃ m, messageStore heard_twice !! l = Some m ∧ Timestamp m = ts)
            [1; 2; 1]%positive [100; 50; 100]%Z) as Hms.
  { repeat constructor; [exists hi|exists yo|exists hi]; split; reflexivity. }
  split; [reflexivity|]. split; [exact Hms|].
  apply (AddMessages_order heard_twice 1%positive 1%positive
           [1; 2; 1]%positive [100; 50; 100]%Z); [reflexivity|exact Hms].
Defined.

Example first_insertions_unsorted :
  first_insertions [] [100; 50; 100]%Z = [100; 50]%Z.
Proof. reflexivity. Qed.

(** A receipt for the stored timestamp and for one the session never saw. *)
Lemma onReceipt_frame_witness :
  wf heard ∧
  ∃ w' c cv conv,
    onReceipt (receipt "+1555" true true [100; 999]%Z) heard = Some (None, w') ∧
    contacts (siggo w') !! "+1555" = Some c ∧
    conversations (siggo w') !! c = Some cv ∧
    convStore w' !! cv = Some conv ∧
    (∀ k x, convStore heard !! k = Some x → convStore w' !! k = Some x) ∧
    match resolved_conv heard "+1555" with
    | Some conv0 => conv = conv0
    | None => conv = {| ConvContact := c; Messages := ∅; MessageOrder := [];
                        HasNewMessage := false |}
    end ∧
    dom (messageStore w') = dom (messageStore heard) ∧
    (∀ l m, messageStore heard !! l = Some m →
       ∃ m', messageStore w' !! l = Some m' ∧
             Content m' = Content m ∧ From m' = From m ∧
             Timestamp m' = Timestamp m ∧
             ((∀ ts, ts ∈ [100; 999]%Z → Messages conv !! ts ≠ Some l) → m' = m)) ∧
    events w' = events heard.
Proof.
  split; [by_computation|].
  apply (onReceipt_frame heard (receipt "+1555" true true [100; 999]%Z)).
  by_computation.
Defined.

Lemma onReceipt_skips_absent_witness :
  wf heard ∧
  999%Z ∈ [100; 999]%Z ∧
  (∀ conv0, resolved_conv heard "+1555" = Some conv0 → Messages conv0 !! 999%Z = None) ∧
  ∃ w' conv,
    onReceipt (receipt "+1555" true true [100; 999]%Z) heard = Some (None, w') ∧
    resolved_conv w' "+1555" = Some conv ∧
    Messages conv !! 999%Z = None ∧
    match resolved_conv heard "+1555" with
    | Some conv0 => conv = conv0
    | None => Messages conv = ∅ ∧ MessageOrder conv = []
    end ∧
    onReceipt (without_timestamp 999 (receipt "+1555" true true [100; 999]%Z)) heard
    = Some (None, w').
Proof.
  assert (∀ conv0, resolved_conv heard "+1555" = Some conv0 →
                   Messages conv0 !! 999%Z = None) as Habsent.
  { intros conv0 Hres. vm_compute in Hres. injection Hres as <-. reflexivity. }
  split; [by_computation|]. split; [by_computation|]. split; [exact Habsent|].
  apply (onReceipt_skips_absent heard (receipt "+1555" true true [100; 999]%Z) 999%Z).
  - by_computation.
  - by_computation.
  - exact Habsent.
Defined.

(** The stored Message is delivered; a receipt with both flags unset takes
    the delivery mark away again. *)
Lemma onReceipt_sets_flags_witness :
  wf heard ∧
  messageStore heard !! 1%positive = Some hi ∧
  IsDelivered hi = true ∧
  ∃ w' c cv conv,
    onReceipt (receipt "+1555" false false [100]%Z) heard = Some (None, w') ∧
    contacts (siggo w') !! "+1555" = Some c ∧
    conversations (siggo w') !! c = Some cv ∧
    convStore w' !! cv = Some conv ∧
    ∀ ts l,
      ts ∈ [100]%Z →
      Messages conv !! ts = Some l →
      ∃ m, messageStore heard !! l = Some m ∧
           messageStore w' !! l
           = Some {| Content := Content m; From := From m; Timestamp := Timestamp m;
                     IsDelivered := false; IsRead := false |}.
Proof.
  split; [by_computation|]. split; [reflexivity|]. split; [reflexivity|].
  apply (onReceipt_sets_flags heard (receipt "+1555" false false [100]%Z)).
  by_computation.
Defined.

Lemma onReceived_unknown_sender_witness :
  wf started ∧
  contacts (siggo started) !! "+1555" = None ∧
  ∃ w' c cv conv,
    onReceived (received "+1555" "hi" 100) started = Some (None, w') ∧
    contactStore started !! c = None ∧
    contactStore w' = <[c := {| Number := "+1555"; Name := "" |}]> (contactStore started) ∧
    contacts (siggo w') = <["+1555" := c]> (contacts (siggo started)) ∧
    conversations (siggo started) !! c = None ∧
    convStore started !! cv = None ∧
    convStore w' = <[cv := conv]> (convStore started) ∧
    ConvContact conv = c ∧
    conversations (siggo w') = <[c := cv]> (conversations (siggo started)).
Proof.
  split; [by_computation|]. split; [reflexivity|].
  apply (onReceived_unknown_sender started (received "+1555" "hi" 100)).
  - by_computation.
  - reflexivity.
Defined.

(** A second message from a sender that is known by now. *)
Lemma onReceived_spec_witness :
  wf heard ∧
  ∃ w' c ct cv conv0 conv' message m logs,
    onReceived (received "+1555" "yo" 50) heard = Some (None, w') ∧
    contacts (siggo w') !! "+1555" = Some c ∧
    contactStore w' !! c = Some ct ∧
    conversations (siggo w') !! c = Some cv ∧
    messageStore heard !! message = None ∧
    messageStore w' = <[message := m]> (messageStore heard) ∧
    Content m = "yo" ∧
    Timestamp m = 50%Z ∧
    IsDelivered m = true ∧
    IsRead m = false ∧
    From m = (if decide (Name ct = "") then "+1555" else Name ct) ∧
    match resolved_conv heard "+1555" with
    | Some conv => conv0 = conv
    | None => conv0 = {| ConvContact := c; Messages := ∅; MessageOrder := [];
                         HasNewMessage := false |}
    end ∧
    convStore w' !! cv = Some conv' ∧
    Messages conv' = <[Timestamp m := message]> (Messages conv0) ∧
    match Messages conv0 !! Timestamp m with
    | None =>
        MessageOrder conv' = MessageOrder conv0 ++ [Timestamp m] ∧
        HasNewMessage conv' = true
    | Some _ =>
        MessageOrder conv' = MessageOrder conv0 ∧
        HasNewMessage conv' = HasNewMessage conv0
    end ∧
    events w' = events heard ++ logs ++ [EvNewInfo cv] ∧
    (∀ x, EvNewInfo x ∉ logs).
Proof.
  split; [by_computation|].
  apply (onReceived_spec heard (received "+1555" "yo" 50)).
  by_computation.
Defined.

(** [Send] to the own contact over the failing transport. *)
Lemma Send_transport_error_witness :
  wf started_failing ∧
  contactStore started_failing !! 1%positive = Some me ∧
  signal_Send (signal (siggo started_failing)) (Number me) "hello"
  = (1%nat, Some "send failed") ∧
  ∃ w' cv conv,
    Send "hello" 1 started_failing = Some (Some "send failed", w') ∧
    conversations (siggo w') !! 1%positive = Some cv ∧
    convStore w' !! cv = Some conv ∧
    match conversations (siggo started_failing) !! 1%positive with
    | Some cv0 => cv = cv0 ∧ convStore w' = convStore started_failing
    | None =>
        convStore started_failing !! cv = None ∧
        conv = {| ConvContact := 1%positive; Messages := ∅; MessageOrder := [];
                  HasNewMessage := false |} ∧
        convStore w' = <[cv := conv]> (convStore started_failing)
    end ∧
    messageStore w' = <[fresh_loc (messageStore started_failing) :=
                          {| Content := "hello";
                             From := UserName (config (siggo started_failing));
                             Timestamp := 0; IsDelivered := false;
                             IsRead := false |}]> (messageStore started_failing) ∧
    (∀ k x ts, convStore w' !! k = Some x →
               Messages x !! ts ≠ Some (fresh_loc (messageStore started_failing))).
Proof.
  split; [by_computation|]. split; [reflexivity|]. split; [reflexivity|].
  apply (Send_transport_error started_failing "hello" 1%positive me 1%nat "send failed").
  - by_computation.
  - reflexivity.
  - reflexivity.
Defined.

(** C8 as the specification states it fails: the transport's error comes
    back, and the conversation of the contact holds no pending Message. *)
Lemma Send_pending_not_recorded :
  contactStore started_failing !! 1%positive = Some me ∧
  signal_Send (signal (siggo started_failing)) (Number me) "hello"
  = (1%nat, Some "send failed") ∧
  ∃ w',
    Send "hello" 1 started_failing = Some (Some "send failed", w') ∧
    ¬ holds_pending w' "hello" 1.
Proof.
  split; [reflexivity|]. split; [reflexivity|].
  eexists. split; [vm_compute; reflexivity|].
  intros (cv & conv & ts & l & m & Hcv & Hconv & Hts & _).
  vm_compute in Hcv. injection Hcv as <-.
  vm_compute in Hconv. injection Hconv as <-.
  by vm_compute in Hts.
Qed.

(** ** The further properties at concrete worlds *)

Lemma reachable_heard : reachable tt cfg heard.
Proof.
  exists started. split; [reflexivity|].
  eapply rtc_l; [|apply rtc_refl].
  apply (step_onReceived (received "+1555" "hi" 100) None). vm_compute. reflexivity.
Defined.

Lemma reachable_invariants_witness :
  reachable tt cfg heard ∧ wf heard ∧ all_ordered heard.
Proof.
  split; [exact reachable_heard|].
  exact (reachable_invariants tt cfg heard reachable_heard).
Defined.

Lemma reachable_rendering_witness :
  reachable tt cfg heard ∧
  convStore heard !! 2%positive = Some hi_conv ∧
  ∃ out, Conversation_String 2 heard = Some (out, heard)
         ∧ rendered (messageStore heard) hi_conv = Some out.
Proof.
  split; [exact reachable_heard|]. split; [reflexivity|].
  exact (reachable_rendering tt cfg heard 2%positive hi_conv reachable_heard eq_refl).
Defined.

(** Over the transport that succeeds, [Send] returns [nil]. *)
Lemma Send_result_witness :
  wf started ∧
  contactStore started !! 1%positive = Some me ∧
  Send "hello" 1 started
  = Some ((signal_Send (signal (siggo started)) (Number me) "hello").2,
          set_siggo (set_signal (signal_Send (signal (siggo started)) (Number me) "hello").1)
            (set_messageStore
               (insert (fresh_loc (messageStore started))
                  {| Content := "hello"; From := UserName (config (siggo started));
                     Timestamp := 0; IsDelivered := false; IsRead := false |})
               (resolve_conversation 1%positive started).2)).
Proof.
  split; [by_computation|]. split; [reflexivity|].
  apply (Send_result started "hello" 1%positive me); [by_computation|reflexivity].
Defined.

Example Send_returns_nil :
  (signal_Send (signal (siggo started)) (Number me) "hello").2 = None.
Proof. reflexivity. Qed.

Lemma Send_nil_contact_witness :
  contactStore started !! 9%positive = None ∧ Send "hello" 9 started = None.
Proof.
  split; [reflexivity|].
  apply (Send_nil_contact started "hello" 9%positive). reflexivity.
Defined.

Lemma Send_then_onReceived_witness :
  wf with_stranger ∧
  contactStore with_stranger !! 5%positive = Some stranger ∧
  Number stranger = contactNumber (received "+1777" "hi" 100) ∧
  contacts (siggo with_stranger) !! contactNumber (received "+1777" "hi" 100) = None ∧
  ∃ r w1 w2 c cv1 cv2,
    Send "hello" 5 with_stranger = Some (r, w1) ∧
    onReceived (received "+1777" "hi" 100) w1 = Some (None, w2) ∧
    contacts (siggo w2) !! contactNumber (received "+1777" "hi" 100) = Some c ∧
    c ≠ 5%positive ∧
    contactStore w2 !! 5%positive = Some stranger ∧
    contactStore w2 !! c
    = Some {| Number := contactNumber (received "+1777" "hi" 100); Name := "" |} ∧
    conversations (siggo w2) !! 5%positive = Some cv1 ∧
    conversations (siggo w2) !! c = Some cv2 ∧
    cv1 ≠ cv2.
Proof.
  split; [by_computation|]. split; [reflexivity|]. split; [reflexivity|].
  split; [reflexivity|].
  apply (Send_then_onReceived with_stranger "hello" 5%positive stranger
           (received "+1777" "hi" 100)); [by_computation|reflexivity..].
Defined.

Lemma ordered_hi_conv : ordered hi_conv.
Proof.
  split; [apply NoDup_singleton|].
  intros k. simpl. rewrite list_elem_of_singleton, lookup_singleton_is_Some.
  split; congruence.
Defined.

Lemma AddMessage_appends_line_witness :
  convStore heard !! 1%positive
  = Some {| ConvContact := 1%positive; Messages := ∅; MessageOrder := [];
            HasNewMessage := false |} ∧
  messageStore heard !! 1%positive = Some hi ∧
  Conversation_String 1 heard = Some ("", heard) ∧
  ∃ w', AddMessage 1 1 heard = Some (tt, w') ∧
        Conversation_String 1 w' = Some ("" +:+ Message_String hi, w').
Proof.
  split; [reflexivity|]. split; [reflexivity|]. split; [reflexivity|].
  apply (AddMessage_appends_line heard 1%positive 1%positive
           {| ConvContact := 1%positive; Messages := ∅; MessageOrder := [];
              HasNewMessage := false |} hi "").
  - reflexivity.
  - apply ordered_empty.
  - reflexivity.
  - reflexivity.
  - reflexivity.
Defined.

(** The second Message with the timestamp 100 takes the place of the first. *)
Lemma AddMessage_replaces_line_witness :
  convStore redelivered !! 2%positive = Some hi_conv ∧
  messageStore redelivered !! 2%positive = Some hi_again ∧
  MessageOrder hi_conv !! 0%nat = Some (Timestamp hi_again) ∧
  mapM (stored_line (messageStore redelivered) hi_conv) (MessageOrder hi_conv)
  = Some [Message_String hi] ∧
  Conversation_String 2 redelivered
  = Some (String.concat "" [Message_String hi], redelivered) ∧
  ∃ w', AddMessage 2 2 redelivered = Some (tt, w') ∧
        Conversation_String 2 w'
        = Some (String.concat "" (<[0%nat := Message_String hi_again]> [Message_String hi]),
                w').
Proof.
  split; [reflexivity|]. split; [reflexivity|]. split; [reflexivity|].
  split; [reflexivity|].
  apply (AddMessage_replaces_line redelivered 2%positive 2%positive hi_conv hi_again
           0%nat [Message_String hi]).
  - reflexivity.
  - exact ordered_hi_conv.
  - reflexivity.
  - reflexivity.
  - reflexivity.
Defined.

Lemma onReceipt_unknown_sender_witness :
  wf started ∧
  contacts (siggo started) !! contactNumber (receipt "+1555" true true [100]%Z) = None ∧
  onReceipt (receipt "+1555" true true [100]%Z) started
  = Some (None,
          set_siggo (set_conversations
                       (insert (fresh_loc (contactStore started))
                          (fresh_loc (convStore started))))
            (set_convStore
               (insert (fresh_loc (convStore started))
                  {| ConvContact := fresh_loc (contactStore started); Messages := ∅;
                     MessageOrder := []; HasNewMessage := false |})
               (set_siggo (set_contacts
                             (insert "+1555" (fresh_loc (contactStore started))))
                  (set_contactStore
                     (insert (fresh_loc (contactStore started))
                        {| Number := "+1555"; Name := "" |}) started)))).
Proof.
  split; [by_computation|]. split; [reflexivity|].
  apply (onReceipt_unknown_sender started (receipt "+1555" true true [100]%Z));
    [by_computation|reflexivity].
Defined.

(** A delivery receipt, then a read receipt that also lists a timestamp the
    session never saw. *)
Lemma onReceipt_later_wins_witness :
  wf heard ∧
  [100]%Z ⊆ [100; 999]%Z ∧
  bind (onReceipt (receipt "+1555" true false [100]%Z))
       (λ _, onReceipt (receipt "+1555" true true [100; 999]%Z)) heard
  = onReceipt (receipt "+1555" true true [100; 999]%Z) heard.
Proof.
  assert ([100]%Z ⊆ [100; 999]%Z) as Hsub.
  { intros x Hx%list_elem_of_singleton. subst x. left. }
  split; [by_computation|]. split; [exact Hsub|].
  apply (onReceipt_later_wins heard (receipt "+1555" true false [100]%Z)
           (receipt "+1555" true true [100; 999]%Z)); [by_computation|reflexivity|exact Hsub].
Defined.

Lemma reachable_extends_witness :
  reachable tt cfg started ∧ rtc step started heard ∧ extends started heard.
Proof.
  assert (reachable tt cfg started) as Hstarted.
  { exists started. split; [reflexivity|apply rtc_refl]. }
  assert (rtc step started heard) as Hsteps.
  { eapply rtc_l; [|apply rtc_refl].
    apply (step_onReceived (received "+1555" "hi" 100) None). vm_compute. reflexivity. }
  split; [exact Hstarted|]. split; [exact Hsteps|].
  exact (reachable_extends tt cfg started heard Hstarted Hsteps).
Defined.

Lemma reachable_keyed_witness : reachable tt cfg heard ∧ keyed heard.
Proof.
  split; [exact reachable_heard|].
  exact (reachable_keyed tt cfg heard reachable_heard).
Defined.
